(** * Volumetric drilling plugin: voxel collision search and carving

    A shallow embedding of [afVolmetricDrillingPlugin]
    (src/volumetric_drilling.cpp): the voxel size and the corner table of
    [init], [recursiveCheckFromVoxel], [findIndexOfAllCollidingVoxels],
    [graphicsUpdate], [physicsUpdate] (device pose, carving, start flag and
    the modes of manipulation), [checkShaftCollision], [drillPosUpdate],
    [changeDrillSize], [incrementDevicePos], [incrementDeviceRot] and
    [keyboardUpdate].

    Conventions.
    - [int] values are [Z].  From a seed inside the texture the indices stay
      within the dimensions plus or minus one and [m_drillSizeIdx] within
      0..3, so no wrap-around arises; offsets into the corner table are
      taken to fit in [int], as the allocation of the table in [init]
      presupposes.
    - [double] values are exact rationals [Q]: rounding is not modelled.  Every
      comparison of the source is kept as the same comparison on [Q].
    - [array<int,3>] is a triple of [Z]; [unordered_set] is a [gset];
      [list<array<int,3>>] is a [list] whose back is the end of the list. *)

From Stdlib Require Import ZArith QArith Qabs Qminmax List Lia Lqa.
From stdpp Require Import base gmap sets list.
Import ListNotations.

Open Scope Z_scope.

(** ** Data model *)

Abbreviation Index := (Z * Z * Z)%type.

Record cVector3d := mkVec { vx : Q; vy : Q; vz : Q }.

Definition vsub (a b : cVector3d) : cVector3d :=
  mkVec (vx a - vx b) (vy a - vy b) (vz a - vz b).

Definition lengthsq (v : cVector3d) : Q :=
  (vx v * vx v + vy v * vy v + vz v * vz v)%Q.

(** [a < b] on doubles. *)
Definition Qlt_bool (a b : Q) : bool := negb (Qle_bool b a).

(** RGBA colour with byte components ([cColorb]). *)
Record cColorb := mkColorb { cR : Z; cG : Z; cB : Z; cA : Z }.

#[global] Instance cColorb_eq_dec : EqDecision cColorb.
Proof. solve_decision. Defined.

(** [operator!=] of [cColorb]. *)
Definition color_neq (c d : cColorb) : bool := bool_decide (c ≠ d).

(** The 3D texture image: its dimensions and the colour of each voxel.
    [getVoxelColor] and [setVoxelColor] belong to the graphics library; the
    image is a total map from indices to colours, so an access outside the
    dimensions (which the source leaves to the library) reads or writes an
    entry of its own. *)
Record cMultiImage := mkImage {
  getWidth : Z;
  getHeight : Z;
  getImageCount : Z;
  voxels : Index → cColorb
}.

Definition getVoxelColor (img : cMultiImage) (i : Index) : cColorb := voxels img i.

Definition setVoxelColor (img : cMultiImage) (i : Index) (c : cColorb) : cMultiImage :=
  mkImage (getWidth img) (getHeight img) (getImageCount img)
          (λ j, if decide (j = i) then c else voxels img j).

(** [m_zeroColor] and [m_boneColor] as set by [init]. *)
Definition m_zeroColor : cColorb := mkColorb 0 0 0 0.
Definition m_boneColor : cColorb := mkColorb 255 249 219 255.

(** One call of the telemetry publisher, [m_drillingPub->voxelsRemoved]:
    the voxel index and [m_storedColor], the colour read from the image just
    before the call, which the loop also tests for the warning.  The colour
    argument the call gets is [color_array] of it, below; the time stamp is
    a reading of the simulation clock and is left out. *)
Record VoxelRemoved := mkEvent { ev_index : Index; ev_color : cColorb }.

(** Modelled from the spec: the type of [m_volumeUpdate] belongs to the
    haptics library and its [setEmpty] and [enclose] are not under src/.
    Following the spec's Dirty Region, it is an axis-aligned bounding box
    that is either empty or spans [m_min .. m_max], and [enclose] grows it
    just enough to contain the given point. *)
Definition Box : Type := option (cVector3d * cVector3d).

Definition setEmpty : Box := None.

Definition vmin (a b : cVector3d) : cVector3d :=
  mkVec (Qmin (vx a) (vx b)) (Qmin (vy a) (vy b)) (Qmin (vz a) (vz b)).

Definition vmax (a b : cVector3d) : cVector3d :=
  mkVec (Qmax (vx a) (vx b)) (Qmax (vy a) (vy b)) (Qmax (vz a) (vz b)).

Definition enclose (b : Box) (pt : cVector3d) : Box :=
  match b with
  | None => Some (pt, pt)
  | Some (lo, hi) => Some (vmin lo pt, vmax hi pt)
  end.

(** [cVector3d(i_x, i_y, i_z)]. *)
Definition indexVec (i : Index) : cVector3d :=
  let '(x, y, z) := i in mkVec (inject_Z x) (inject_Z y) (inject_Z z).

(** The fields of the plugin that the modelled methods read or write.
    [voxelCorners] is the flat corner table filled by [init], as a total map
    from offsets to positions.  [tipRadius] and [burrRadius] are the radii
    of [m_toolCursorList[0]] and [m_burrMesh].
    [originalVoxels] is the texture as loaded, kept by the volume object;
    [published] is the sequence of telemetry calls made so far, oldest
    first.  [showPanel] and [showText] are the visibility of [m_warningPopup]
    and [m_warningText]. *)
Record Plugin := mkPlugin {
  texSize : Index;
  voxelCorners : Z → cVector3d;
  image : cMultiImage;
  originalVoxels : Index → cColorb;
  tipRadius : Q;
  burrRadius : Q;
  m_drillSizeIdx : Z;
  m_currDrillSize : Z;
  m_maxError : Q;
  m_targetToolCursorIdx : Z;
  m_volumeUpdate : Box;
  m_flagMarkVolumeForUpdate : bool;
  showPanel : bool;
  showText : bool;
  published : list VoxelRemoved
}.

Definition set_image (img : cMultiImage) (p : Plugin) : Plugin :=
  mkPlugin (texSize p) (voxelCorners p) img (originalVoxels p) (tipRadius p)
           (burrRadius p) (m_drillSizeIdx p) (m_currDrillSize p) (m_maxError p)
           (m_targetToolCursorIdx p) (m_volumeUpdate p) (m_flagMarkVolumeForUpdate p)
           (showPanel p) (showText p) (published p).

Definition set_drill (tip burr : Q) (idx size : Z) (p : Plugin) : Plugin :=
  mkPlugin (texSize p) (voxelCorners p) (image p) (originalVoxels p) tip
           burr idx size (m_maxError p)
           (m_targetToolCursorIdx p) (m_volumeUpdate p) (m_flagMarkVolumeForUpdate p)
           (showPanel p) (showText p) (published p).

Definition set_target (err : Q) (idx : Z) (p : Plugin) : Plugin :=
  mkPlugin (texSize p) (voxelCorners p) (image p) (originalVoxels p) (tipRadius p)
           (burrRadius p) (m_drillSizeIdx p) (m_currDrillSize p) err
           idx (m_volumeUpdate p) (m_flagMarkVolumeForUpdate p)
           (showPanel p) (showText p) (published p).

Definition set_volumeUpdate (b : Box) (p : Plugin) : Plugin :=
  mkPlugin (texSize p) (voxelCorners p) (image p) (originalVoxels p) (tipRadius p)
           (burrRadius p) (m_drillSizeIdx p) (m_currDrillSize p) (m_maxError p)
           (m_targetToolCursorIdx p) b (m_flagMarkVolumeForUpdate p)
           (showPanel p) (showText p) (published p).

Definition set_flagMark (f : bool) (p : Plugin) : Plugin :=
  mkPlugin (texSize p) (voxelCorners p) (image p) (originalVoxels p) (tipRadius p)
           (burrRadius p) (m_drillSizeIdx p) (m_currDrillSize p) (m_maxError p)
           (m_targetToolCursorIdx p) (m_volumeUpdate p) f
           (showPanel p) (showText p) (published p).

(** [m_warningPopup->setShowPanel(b); m_warningText->setShowEnabled(b)]. *)
Definition set_warning (b : bool) (p : Plugin) : Plugin :=
  mkPlugin (texSize p) (voxelCorners p) (image p) (originalVoxels p) (tipRadius p)
           (burrRadius p) (m_drillSizeIdx p) (m_currDrillSize p) (m_maxError p)
           (m_targetToolCursorIdx p) (m_volumeUpdate p) (m_flagMarkVolumeForUpdate p)
           b b (published p).

Definition publish (e : VoxelRemoved) (p : Plugin) : Plugin :=
  mkPlugin (texSize p) (voxelCorners p) (image p) (originalVoxels p) (tipRadius p)
           (burrRadius p) (m_drillSizeIdx p) (m_currDrillSize p) (m_maxError p)
           (m_targetToolCursorIdx p) (m_volumeUpdate p) (m_flagMarkVolumeForUpdate p)
           (showPanel p) (showText p) (published p ++ [e]).

(** ** recursiveCheckFromVoxel *)

(** State threaded through the recursion: the two reference parameters, and
    a ghost log [evaluated] of the indices whose corner test was run, oldest
    first. *)
Record SearchState := mkSearch {
  alreadyChecked : gset Index;
  listOfCollidingVoxels : list Index;
  evaluated : list Index
}.

(** The 27 offsets [(i, j, k)] in the order of the three nested loops. *)
Definition loopOffsets : list Index :=
  i ← [-1; 0; 1]; j ← [-1; 0; 1]; k ← [-1; 0; 1]; [(i, j, k)].

Section CollisionSearch.

(** The search reads the plugin ([texSize], the flat corner table
    [voxelCorners], the image, the radius of the burr mesh) and the global
    proxy position of the tip cursor, [m_toolCursorList[0]]. *)
Variable p : Plugin.
Variable globalPosProxy : cVector3d.

Definition cornerOffset (idx : Index) (cor : Z) : Z :=
  let '(i_x, i_y, i_z) := idx in
  let '(_, ts1, ts2) := texSize p in
  i_x * (ts1 * ts2 * 8) + i_y * (ts2 * 8) + i_z * 8 + cor.

Definition cornerInTool (idx : Index) (cor : Z) : bool :=
  let ray := vsub globalPosProxy (voxelCorners p (cornerOffset idx cor)) in
  Qlt_bool (lengthsq ray) (burrRadius p ^ 2)%Q.

(** The loop over the eight corners. *)
Definition numCornersInTool (idx : Index) : Z :=
  fold_left (λ n cor, if cornerInTool idx cor then n + 1 else n)
            [0; 1; 2; 3; 4; 5; 6; 7] 0.

Definition inRange (idx : Index) : bool :=
  let '(x, y, z) := idx in
  (0 <=? x) && (x <? getWidth (image p)) &&
  (0 <=? y) && (y <? getHeight (image p)) &&
  (0 <=? z) && (z <? getImageCount (image p)).

(** The indices on which the neighbour loop recurses, in call order. *)
Definition neighbours (idx : Index) : list Index :=
  let '(i_x, i_y, i_z) := idx in
  omap (λ '(i, j, k),
          if (negb (i =? 0) || negb (j =? 0) || negb (k =? 0))
             && inRange (i_x + i, i_y + j, i_z + k)
          then Some (i_x + i, i_y + j, i_z + k) else None)
       loopOffsets.

(** The body between the visited test and the neighbour loop: mark the
    index, count its corners, record it when colliding and not empty.
    Returns the [collision] flag with the new state. *)
Definition checkVoxel (index : Index) (s : SearchState) : bool * SearchState :=
  let checked := {[index]} ∪ alreadyChecked s in
  let m_storedColor := getVoxelColor (image p) index in
  let n := numCornersInTool index in
  let collision := (0 <? n) && (n <? 8) in
  let colliding :=
    if collision && color_neq m_storedColor m_zeroColor
    then listOfCollidingVoxels s ++ [index]
    else listOfCollidingVoxels s in
  (collision, mkSearch checked colliding (evaluated s ++ [index])).

(** Run [f] on each element in turn, threading the state; [None] (out of
    fuel) is propagated. *)
Fixpoint forEach {A S : Type} (f : A → S → option S) (l : list A) (s : S) : option S :=
  match l with
  | [] => Some s
  | a :: l' => match f a s with Some s' => forEach f l' s' | None => None end
  end.

(** [fuel] bounds the depth of the recursion; the source has no such bound.
    [m_storedColor], a field of the plugin, is written before each use and
    is kept local to [checkVoxel]. *)
Fixpoint recursiveCheckFromVoxel (fuel : nat) (voxelIndex : Index) (s : SearchState)
  : option SearchState :=
  match fuel with
  | O => None
  | S fuel' =>
      if decide (voxelIndex ∈ alreadyChecked s) then Some s
      else
        let '(collision, s1) := checkVoxel voxelIndex s in
        if negb collision && negb (size (alreadyChecked s1) =? 1)%nat
        then Some s1
        else forEach (recursiveCheckFromVoxel fuel') (neighbours voxelIndex) s1
  end.

(** Number of voxels of the texture. *)
Definition gridSize : nat :=
  (Z.to_nat (getWidth (image p)) * Z.to_nat (getHeight (image p))
   * Z.to_nat (getImageCount (image p)))%nat.

(** Recursion depth that always suffices (see [recursiveCheck_terminates]). *)
Definition searchFuel : nat := S (S gridSize).

(** The seed comes from the first collision event of the tip cursor. *)
Definition findIndexOfAllCollidingVoxels (firstContact : Index) (container : list Index)
  : option SearchState :=
  let container := container ++ [firstContact] in
  recursiveCheckFromVoxel searchFuel firstContact (mkSearch ∅ container []).

End CollisionSearch.

(** ** graphicsUpdate *)

(** Returns the plugin and the region handed to [markForPartialUpdate], if
    it is called.  The read and the [setEmpty] happen under [m_mutexVoxel]. *)
Definition graphicsUpdate (p : Plugin) : Plugin * option Box :=
  if m_flagMarkVolumeForUpdate p then
    let region := m_volumeUpdate p in
    let p := set_volumeUpdate setEmpty p in
    (set_flagMark false p, Some region)
  else (p, None).

(** ** checkShaftCollision *)

Definition errorEps : Q := 1 # 100000.

(** The loop over the tool cursors; [errs] holds, for cursor [i], [i + 1],
    ..., the distance [cDistance(proxy, goal)] and [acc] is
    [(m_maxError, m_targetToolCursorIdx)].  With [<cmath>] and
    [using namespace std], [abs] is the absolute value on [double]. *)
Fixpoint shaftLoop (i : Z) (errs : list Q) (acc : Q * Z) : Q * Z :=
  match errs with
  | [] => acc
  | m_currError :: rest =>
      shaftLoop (i + 1) rest
        (if Qlt_bool (Qabs (fst acc + errorEps)) (Qabs m_currError)
         then (m_currError, i) else acc)
  end.

Definition checkShaftCollision (errs : list Q) (p : Plugin) : Plugin :=
  let '(maxError, idx) := shaftLoop 0 errs (0%Q, 0) in
  set_target maxError idx p.

(** ** physicsUpdate: collision search, carving and the warning panel *)

(** What the contact solver and the device provide for one tick: the
    proxy-goal distance of each tool cursor (tip first), whether the tip is
    in contact with the voxel object, the voxel index of its first collision
    event and its global proxy position. *)
Record TickInput := mkTick {
  errors : list Q;
  isInContact : bool;
  firstContact : Index;
  tipProxy : cVector3d
}.

(** One iteration of the [while] loop that empties the container. *)
Definition carveVoxel (volIndex : Index) (st : Plugin * bool) : Plugin * bool :=
  let '(p, critialRegionFlag) := st in
  let m_storedColor := getVoxelColor (image p) volIndex in
  let p := publish (mkEvent volIndex m_storedColor) p in
  let critialRegionFlag :=
    if color_neq m_storedColor m_boneColor && color_neq m_storedColor m_zeroColor
    then true else critialRegionFlag in
  let p := set_image (setVoxelColor (image p) volIndex m_zeroColor) p in
  let p := set_volumeUpdate (enclose (m_volumeUpdate p) (indexVec volIndex)) p in
  (p, critialRegionFlag).

(** The loop takes [back()] and [pop_back()] until the list is empty: the
    last element is carved first. *)
Definition carveAll (allCollidingVoxelIndex : list Index) (st : Plugin * bool)
  : Plugin * bool :=
  foldr carveVoxel st allCollidingVoxelIndex.

(** The part of [physicsUpdate] from [checkShaftCollision] to the warning
    panel; [drillPosUpdate] in between moves the drill body only.  [None]
    only if the search ran out of fuel, which [physicsUpdate_total]
    excludes. *)
Definition physicsUpdate (inp : TickInput) (p : Plugin) : option Plugin :=
  let p := checkShaftCollision (errors inp) p in
  if isInContact inp && (m_targetToolCursorIdx p =? 0) then
    s ← findIndexOfAllCollidingVoxels p (tipProxy inp) (firstContact inp) [];
    let '(p, critialRegionFlag) := carveAll (listOfCollidingVoxels s) (p, false) in
    let p := if critialRegionFlag then set_warning true p else p in
    Some (set_flagMark true p)
  else Some (set_warning false p).

(** ** changeDrillSize *)

Definition changeDrillSize (p : Plugin) : Plugin :=
  let idx := m_drillSizeIdx p + 1 in
  let idx := if 2 <? idx then 0 else idx in
  match idx with
  | 0 => set_drill (403 # 10000) (403 # 10000) idx 2 p
  | 1 => set_drill (805 # 10000) (805 # 10000) idx 4 p
  | 2 => set_drill (1208 # 10000) (1208 # 10000) idx 6 p
  | _ => set_drill (tipRadius p) (burrRadius p) idx (m_currDrillSize p) p
  end.

(** ** keyboardUpdate *)

(** The keys whose effect falls on the modelled fields. *)
Inductive Key := GLFW_KEY_N | GLFW_KEY_C | GLFW_KEY_other.

(** Modelled from the spec: [m_volumeObject->reset()] is a method of the
    simulation framework, not under src/.  Per the spec's volume reset it
    restores every voxel to the colour it was loaded with; it has no access
    to the fields of the plugin. *)
Definition volumeObject_reset (p : Plugin) : Plugin :=
  set_image (mkImage (getWidth (image p)) (getHeight (image p))
                     (getImageCount (image p)) (originalVoxels p)) p.

(** [ctrl] is [a_mods == GLFW_MOD_CONTROL].  With control, N resets the
    volume; without, C changes the drill size.  The other keys act on state
    that is not modelled. *)
Definition keyboardUpdate (ctrl : bool) (a_key : Key) (p : Plugin) : Plugin :=
  if ctrl then
    match a_key with GLFW_KEY_N => volumeObject_reset p | _ => p end
  else
    match a_key with GLFW_KEY_C => changeDrillSize p | _ => p end.

(** ** init: size of a voxel along each axis *)

(** Extents and texture coordinates of the voxel object. *)
Record cVoxelObject := mkVoxelObject {
  m_minCorner : cVector3d;
  m_maxCorner : cVector3d;
  m_minTextureCoord : cVector3d;
  m_maxTextureCoord : cVector3d
}.

Definition vget (v : cVector3d) (i : Z) : Q :=
  match i with 0 => vx v | 1 => vy v | _ => vz v end.

Definition iget (t : Index) (i : Z) : Z :=
  let '(a, b, c) := t in match i with 0 => a | 1 => b | _ => c end.

(** [cMin(a, b)] is [a <= b ? a : b]. *)
Definition cMin (a b : Q) : Q := if Qle_bool a b then a else b.

(** Division that records a zero divisor as [None]. *)
Definition divide (a b : Q) : option Q :=
  if Qeq_bool b 0 then None else Some (a / b)%Q.

(** The divisor of the [else] branch. *)
Definition texelDivisor (v : cVoxelObject) (texSize : Index) (i : Z) : Q :=
  ((vget (m_maxTextureCoord v) i - vget (m_minTextureCoord v) i)
   * inject_Z (iget texSize i))%Q.

(** Body of the loop [for (int i=0; i<3; i++)]. *)
Definition voxelSizeAxis (v : cVoxelObject) (texSize : Index) (i : Z) : option Q :=
  if Qeq_bool (vget (m_maxTextureCoord v) i) (vget (m_minTextureCoord v) i) then
    Some (Qabs (vget (m_maxCorner v) i - vget (m_minCorner v) i))
  else
    let s := Qabs (vget (m_maxCorner v) i - vget (m_minCorner v) i) in
    q ← divide s (texelDivisor v texSize i);
    Some (cMin s q).

Definition computeVoxelSize (v : cVoxelObject) (texSize : Index) : option (Q * Q * Q) :=
  v_width ← voxelSizeAxis v texSize 0;
  v_height ← voxelSizeAxis v texSize 1;
  v_depth ← voxelSizeAxis v texSize 2;
  Some (v_width, v_height, v_depth).

(** ** Notions used in the statements *)

(** The corner-in-sphere count is strictly between 0 and 8. *)
Definition inContactWithTool (p : Plugin) (proxy : cVector3d) (idx : Index) : bool :=
  (0 <? numCornersInTool p proxy idx) && (numCornersInTool p proxy idx <? 8).

Definition isEmptyVoxel (p : Plugin) (idx : Index) : bool :=
  bool_decide (getVoxelColor (image p) idx = m_zeroColor).

(** In contact and not yet removed. *)
Definition contactVoxel (p : Plugin) (proxy : cVector3d) (idx : Index) : bool :=
  inContactWithTool p proxy idx && negb (isEmptyVoxel p idx).

(** All indices of the texture, and the same as a set. *)
Definition allIndices (p : Plugin) : list Index :=
  x ← seqZ 0 (getWidth (image p));
  y ← seqZ 0 (getHeight (image p));
  z ← seqZ 0 (getImageCount (image p)); [(x, y, z)].

Definition grid (p : Plugin) : gset Index := list_to_set (allIndices p).

(** Neither bone nor empty: the colour of a critical region. *)
Definition criticalColor (c : cColorb) : bool :=
  color_neq c m_boneColor && color_neq c m_zeroColor.

(** The telemetry calls made by a step from [p] to [p']. *)
Definition newEvents (p p' : Plugin) : list VoxelRemoved :=
  drop (length (published p)) (published p').

Definition boxContains (b : Box) (pt : cVector3d) : Prop :=
  match b with
  | None => False
  | Some (lo, hi) =>
      (vx lo <= vx pt <= vx hi)%Q ∧ (vy lo <= vy pt <= vy hi)%Q ∧
      (vz lo <= vz pt <= vz hi)%Q
  end.

(** Enclosing a sequence of voxel indices, first to last. *)
Definition encloseAll (b : Box) (l : list Index) : Box :=
  fold_left (λ b i, enclose b (indexVec i)) l b.

(** The index-wise bounding box of a sequence of indices: the least and the
    greatest index along each axis. *)
Definition idxMin (a b : Index) : Index :=
  let '(x, y, z) := a in let '(u, v, w) := b in (Z.min x u, Z.min y v, Z.min z w).

Definition idxMax (a b : Index) : Index :=
  let '(x, y, z) := a in let '(u, v, w) := b in (Z.max x u, Z.max y v, Z.max z w).

Definition boundingBox (l : list Index) : option (Index * Index) :=
  match l with
  | [] => None
  | i :: l' => Some (fold_left idxMin l' i, fold_left idxMax l' i)
  end.

Definition boxOfIndices (l : list Index) : Box :=
  match boundingBox l with
  | None => None
  | Some (lo, hi) => Some (indexVec lo, indexVec hi)
  end.

(** A run of physics ticks. *)
Fixpoint runTicks (ticks : list TickInput) (p : Plugin) : option Plugin :=
  match ticks with
  | [] => Some p
  | t :: rest => p' ← physicsUpdate t p; runTicks rest p'
  end.

(** Every index the search added to the list, from state [s] to state [t],
    is in contact and not empty. *)
Definition pushedOnly (p : Plugin) (proxy : cVector3d) (s t : SearchState) : Prop :=
  ∃ added, listOfCollidingVoxels t = listOfCollidingVoxels s ++ added ∧
           Forall (λ i, contactVoxel p proxy i = true) added.

(** The ghost log lists the visited set without repetition. *)
Definition logExact (s : SearchState) : Prop :=
  NoDup (evaluated s) ∧ ∀ i, i ∈ evaluated s ↔ i ∈ alreadyChecked s.

(** Whether this tick carves: the tip is in contact and is the target. *)
Definition carvingTick (inp : TickInput) (p : Plugin) : bool :=
  isInContact inp && (m_targetToolCursorIdx (checkShaftCollision (errors inp) p) =? 0).

(** What a step from [p] to [p'] did: it published [evs], enclosed their
    indices in that order, and kept the loaded colours. *)
Record Carved (p p' : Plugin) (evs : list VoxelRemoved) : Prop := mkCarved {
  carved_published : published p' = published p ++ evs;
  carved_region :
    m_volumeUpdate p' = encloseAll (m_volumeUpdate p) (map ev_index evs);
  carved_original : originalVoxels p' = originalVoxels p
}.

(** The plugin after a tick. *)
Definition afterTick (t : TickInput) (p : Plugin) : Plugin :=
  default p (physicsUpdate t p).

(** State of the loop after the cursors [errs]: either no cursor was
    accepted, or cursor [k] with error [m] was the last one accepted. *)
Definition shaftInv (errs : list Q) (acc : Q * Z) : Prop :=
  let '(m, k) := acc in
  (m = 0%Q ∧ k = 0 ∧ Forall (λ e, e <= errorEps)%Q errs)
  ∨ (0 ≤ k < Z.of_nat (length errs) ∧ errs !! Z.to_nat k = Some m ∧
     (errorEps < m)%Q ∧
     Forall (λ e, e <= m + errorEps)%Q errs ∧
     (∀ j ej, (j < Z.to_nat k)%nat → errs !! j = Some ej → (ej < m)%Q) ∧
     (∀ e0, errs !! 0%nat = Some e0 → (errorEps < e0)%Q →
            k = 0 ∨ (e0 + errorEps < m)%Q)).

(** The two critical sections on [m_volumeUpdate], each run with
    [m_mutexVoxel] held: the [enclose] of the drain in [physicsUpdate] and
    the read-and-[setEmpty] of [graphicsUpdate].  Holding the mutex makes
    each of them one step; the physics and the render task interleave them
    in any order. *)
Inductive RegionAction := ActEnclose (i : Index) | ActRefresh.

Definition regionStep (b : Box) (a : RegionAction) : Box :=
  match a with
  | ActEnclose i => enclose b (indexVec i)
  | ActRefresh => setEmpty
  end.

Definition regionAfter (trace : list RegionAction) (b : Box) : Box :=
  fold_left regionStep trace b.

(** The indices enclosed since the last refresh, and whether there was a
    refresh at all. *)
Definition sinceRefresh (trace : list RegionAction) : list Index :=
  fold_left (λ acc a, match a with ActEnclose i => acc ++ [i] | ActRefresh => [] end)
            trace [].

Definition refreshed (trace : list RegionAction) : bool :=
  existsb (λ a, match a with ActRefresh => true | ActEnclose _ => false end) trace.

(** The drill size designated by [m_drillSizeIdx], in mm. *)
Definition drillSizeOf (idx : Z) : Z := 2 * (idx + 1).

(** ** A small volume for concrete runs *)

(** Corner table of a texture with unit voxels, axes aligned with the world
    and voxel (0,0,0) at the origin: offset
    [i*(h*d*8) + j*(d*8) + k*8 + (4x+2y+z)] holds [(i+x, j+y, k+z)]. *)
Definition unitCorners (ts : Index) (off : Z) : cVector3d :=
  let '(_, h, d) := ts in
  let cor := off mod 8 in
  let k := (off / 8) mod d in
  let j := (off / (8 * d)) mod h in
  let i := off / (8 * d * h) in
  mkVec (inject_Z (i + cor / 4)) (inject_Z (j + (cor / 2) mod 2))
        (inject_Z (k + cor mod 2)).

(** A 3x3x3 volume of [colors], burr radius [r], nothing removed yet. *)
Definition cubePlugin (colors : Index → cColorb) (r : Q) : Plugin :=
  mkPlugin (3, 3, 3) (unitCorners (3, 3, 3)) (mkImage 3 3 3 colors) colors
           r r 0 2 0%Q 0 setEmpty false false false [].

Definition boneCube : Plugin := cubePlugin (λ _, m_boneColor) 1%Q.

(** Bone everywhere but one voxel of another tissue at (0,0,0). *)
Definition nerveColor : cColorb := mkColorb 200 30 30 255.

Definition nerveCube : Plugin :=
  cubePlugin (λ i, if decide (i = (0, 0, 0)) then nerveColor else m_boneColor) (1 # 3).

(** A voxel object spanning the unit cube, texture coordinates 0 to 1. *)
Definition unitVolume : cVoxelObject :=
  mkVoxelObject (mkVec 0 0 0) (mkVec 1 1 1) (mkVec 0 0 0) (mkVec 1 1 1).

(** The tip proxy at the centre of the cube, at the corner shared by the
    voxels (0..1)^3 and at the corner shared by the voxels (1..2)^3. *)
Definition cubeCentre : cVector3d := mkVec (3 # 2) (3 # 2) (3 # 2).
Definition tickCentre : TickInput := mkTick [0%Q] true (1, 1, 1) cubeCentre.
Definition tickCorner1 : TickInput := mkTick [0%Q] true (1, 1, 1) (mkVec 1 1 1).
Definition tickCorner2 : TickInput := mkTick [0%Q] true (2, 2, 2) (mkVec 2 2 2).

(** ** Notions used for the flood fill and the drain *)

(** The voxels the flood fill can get to: the seed, and every neighbour
    inside the texture of a voxel already reached that is the seed or is
    in contact with the tool. *)
Inductive reachable (p : Plugin) (proxy : cVector3d) (seed : Index) : Index → Prop :=
| reach_seed : reachable p proxy seed seed
| reach_step (v nb : Index) :
    reachable p proxy seed v →
    v = seed ∨ inContactWithTool p proxy v = true →
    nb ∈ neighbours p v →
    reachable p proxy seed nb.

(** The colour argument of [voxelsRemoved]: [getColorf()] of the graphics
    library gives each byte divided by 255 as a float, and the assignment
    to [int color_array[4]] drops the fraction. *)
Definition color_array (c : cColorb) : Z * Z * Z * Z :=
  (Z.quot (cR c) 255, Z.quot (cG c) 255, Z.quot (cB c) 255, Z.quot (cA c) 255).

(** The arguments of the call that an entry of [published] stands for: the
    voxel index and [color_array] of the colour the loop had read. *)
Definition voxelsRemoved (e : VoxelRemoved) : Index * (Z * Z * Z * Z) :=
  (ev_index e, color_array (ev_color e)).

(** A colour whose components are bytes. *)
Definition byteColor (c : cColorb) : Prop :=
  0 ≤ cR c ≤ 255 ∧ 0 ≤ cG c ≤ 255 ∧ 0 ≤ cB c ≤ 255 ∧ 0 ≤ cA c ≤ 255.

(** 1 for the byte 255 and 0 for every other. *)
Definition saturated (b : Z) : Z := if b =? 255 then 1 else 0.

(** What the drain of [seed :: added] reads over the image [img]: the added
    voxels last to first, each with its colour in [img], then the seed, for
    which it reads the EMPTY colour if it has just carved it. *)
Definition drainEvents (img : cMultiImage) (seed : Index) (added : list Index)
  : list VoxelRemoved :=
  map (λ i, mkEvent i (getVoxelColor img i)) (rev added)
  ++ [mkEvent seed (if bool_decide (seed ∈ added) then m_zeroColor
                    else getVoxelColor img seed)].

(** From state [s] to state [s'] the visited set is closed: every voxel
    newly visited that is in contact has all its neighbours visited. *)
Definition closedFrom (p : Plugin) (proxy : cVector3d) (s s' : SearchState) : Prop :=
  ∀ v nb, v ∈ alreadyChecked s' → v ∉ alreadyChecked s →
          inContactWithTool p proxy v = true → nb ∈ neighbours p v →
          nb ∈ alreadyChecked s'.

(** ** Vectors, matrices and transforms *)

(** The operators of [cVector3d], [cMatrix3d] and [cTransform] used by the
    plugin, with their usual meaning; a matrix is given by its columns. *)
Definition vadd (a b : cVector3d) : cVector3d :=
  mkVec (vx a + vx b) (vy a + vy b) (vz a + vz b).

Definition vscale (a : cVector3d) (k : Q) : cVector3d :=
  mkVec (vx a * k) (vy a * k) (vz a * k).

Definition vneg (a : cVector3d) : cVector3d := mkVec (- vx a) (- vy a) (- vz a).

(** Equality of doubles component by component (the same rational, however
    it is written). *)
Definition veq (a b : cVector3d) : Prop :=
  (vx a == vx b)%Q ∧ (vy a == vy b)%Q ∧ (vz a == vz b)%Q.

Record cMatrix3d := mkMat {
  getCol0 : cVector3d;
  getCol1 : cVector3d;
  getCol2 : cVector3d
}.

Definition mulMV (m : cMatrix3d) (v : cVector3d) : cVector3d :=
  vadd (vadd (vscale (getCol0 m) (vx v)) (vscale (getCol1 m) (vy v)))
       (vscale (getCol2 m) (vz v)).

Definition mulMM (a b : cMatrix3d) : cMatrix3d :=
  mkMat (mulMV a (getCol0 b)) (mulMV a (getCol1 b)) (mulMV a (getCol2 b)).

Record cTransform := mkTransform {
  getLocalPos : cVector3d;
  getLocalRot : cMatrix3d
}.

Definition setLocalPos (t : cTransform) (pos : cVector3d) : cTransform :=
  mkTransform pos (getLocalRot t).

Definition setLocalRot (t : cTransform) (rot : cMatrix3d) : cTransform :=
  mkTransform (getLocalPos t) rot.

(** ** init: the corner table *)

(** [volCornerGlobal] for corner [(x, y, z)] of voxel [idx]. *)
Definition cornerPosition (voxelObjRot : cMatrix3d) (v000GlobalPos : cVector3d)
           (voxelSize : Q * Q * Q) (idx : Index) (x y z : Z) : cVector3d :=
  let '(v_width, v_height, v_depth) := voxelSize in
  let '(i, j, k) := idx in
  let vRelativePos :=
    mkVec (inject_Z i * v_width) (inject_Z j * v_height) (inject_Z k * v_depth) in
  let volCornerRelative :=
    vadd vRelativePos
         (mkVec (v_width * inject_Z x) (v_height * inject_Z y) (v_depth * inject_Z z)) in
  vadd (mulMV voxelObjRot volCornerRelative) v000GlobalPos.

(** The assignments to [voxelCorners] made by the six nested loops, in
    order, as pairs of offset and value. *)
Definition cornerWrites (voxelObjRot : cMatrix3d) (v000GlobalPos : cVector3d)
           (voxelSize : Q * Q * Q) (dims : Index) : list (Z * cVector3d) :=
  let '(v_texWidth, v_texHeight, v_texDepth) := dims in
  i ← seqZ 0 v_texWidth; j ← seqZ 0 v_texHeight; k ← seqZ 0 v_texDepth;
  x ← [0; 1]; y ← [0; 1]; z ← [0; 1];
  [(i * (v_texHeight * v_texDepth * 8) + j * (v_texDepth * 8) + k * 8
    + (4 * x + 2 * y + z),
    cornerPosition voxelObjRot v000GlobalPos voxelSize (i, j, k) x y z)].

(** The array after the loops: a later assignment to a slot replaces an
    earlier one. *)
Definition loadVoxelCorners (voxelObjRot : cMatrix3d) (v000GlobalPos : cVector3d)
           (voxelSize : Q * Q * Q) (dims : Index) : gmap Z cVector3d :=
  fold_left (λ m w, <[w.1 := w.2]> m)
            (cornerWrites voxelObjRot v000GlobalPos voxelSize dims) ∅.

(** Reading the array as the search does; a slot never assigned holds
    whatever [new] left there, here the zero vector. *)
Definition tableLookup (t : gmap Z cVector3d) (off : Z) : cVector3d :=
  default (mkVec 0 0 0) (t !! off).

(** ** physicsUpdate: the device pose *)

(** What the haptic device reports in a tick. *)
Record DeviceSample := mkSample {
  T_i : cTransform;
  V_i : cVector3d;
  clutch : bool
}.

(** Vector divided by a double; [None] for a zero divisor. *)
Definition vdiv (v : cVector3d) (s : Q) : option cVector3d :=
  if Qeq_bool s 0 then None
  else Some (mkVec (vx v / s) (vy v / s) (vz v / s)).

(** The first block of [physicsUpdate]: the new [T_d].  [dev] is [None]
    when no device is available; [camRot] is the rotation of the main
    camera and [workspaceScaleFactor] that of the tip cursor. *)
Definition updateDevicePose (dev : option DeviceSample) (camRot : cMatrix3d)
           (workspaceScaleFactor : Q) (drill T_d : cTransform) : option cTransform :=
  match dev with
  | Some d =>
      v ← vdiv (vscale (V_i d) (if clutch d then 0 else 1)) workspaceScaleFactor;
      let V := mulMV camRot v in
      let T_d := setLocalPos T_d (vadd (getLocalPos T_d) V) in
      Some (setLocalRot T_d (mulMM camRot (getLocalRot (T_i d))))
  | None => Some drill
  end.

(** ** physicsUpdate: the start flag *)

(** The block on [m_flagStart] and [m_counter], given the length of the
    force; state is [(m_flagStart, m_counter)] and the result also tells
    whether the tip cursor was re-initialized. *)
Definition forceStart (forceLength : Q) (st : bool * Z) : bool * Z * bool :=
  let '(m_flagStart, m_counter) := st in
  if m_flagStart then
    if negb (Qeq_bool forceLength 0) then (true, 0, true)
    else
      let m_counter := m_counter + 1 in
      if 10 <? m_counter then (false, m_counter, false)
      else (true, m_counter, false)
  else
    if Qlt_bool 10 forceLength then (true, m_counter, false)
    else (false, m_counter, false).

(** The flag and counter after a sequence of ticks with these force
    lengths. *)
Definition forceStartRun (forces : list Q) (st : bool * Z) : bool * Z :=
  fold_left (λ st f, (forceStart f st).1) forces st.

(** ** physicsUpdate: manipulation *)

Inductive ControlMode := HAPTIC_IDLE | HAPTIC_SELECTION.

(** The three branches of the manipulation block. *)
Inductive ManipulationState := STATE_1 | STATE_2 | STATE_3.

(** Which branch runs, and the mode it leaves; the transforms computed in
    the branches are not modelled. *)
Definition manipulation (button : bool) (m_controlMode : ControlMode)
  : ControlMode * ManipulationState :=
  match m_controlMode, button with
  | HAPTIC_IDLE, true => (HAPTIC_SELECTION, STATE_1)
  | HAPTIC_SELECTION, true => (HAPTIC_SELECTION, STATE_2)
  | _, _ => (HAPTIC_IDLE, STATE_3)
  end.

(** The branches taken over a sequence of ticks with these button states. *)
Fixpoint manipulationRun (buttons : list bool) (mode : ControlMode)
  : list ManipulationState :=
  match buttons with
  | [] => []
  | b :: rest =>
      let '(mode', st) := manipulation b mode in st :: manipulationRun rest mode'
  end.

(** ** drillPosUpdate *)

(** What [drillPosUpdate] reads from the cursors: the target index, the
    proxy position and device rotation of the tip, the proxy position of
    the target cursor and its proxy-goal distance. *)
Record ShaftReading := mkReading {
  targetIdx : Z;
  tipProxyPos : cVector3d;
  tipDeviceRot : cMatrix3d;
  targetProxyPos : cVector3d;
  targetError : Q
}.

(** The local transform of the drill body after [drillPosUpdate]. *)
Definition drillPosUpdate (m_dX : Q) (m_suddenJump : bool) (r : ShaftReading)
           (drill : cTransform) : cTransform :=
  if targetIdx r =? 0 then mkTransform (tipProxyPos r) (tipDeviceRot r)
  else if Qle_bool (targetError r) (1 # 1000) then
    let xDir := getCol0 (getLocalRot drill) in
    let follow :=
      vsub (targetProxyPos r)
           (vscale (vscale xDir m_dX) (inject_Z (targetIdx r))) in
    let newDrillPos :=
      if negb m_suddenJump then follow
      else vadd (getLocalPos drill)
                (vscale (vsub follow (getLocalPos drill)) (4 # 100)) in
    mkTransform newDrillPos (tipDeviceRot r)
  else drill.

(** ** keyboardUpdate with all its keys *)

(** [cClamp(x, low, high)] of the haptics library: the nearest value of the
    interval. *)
Definition cClamp (x low high : Q) : Q :=
  if Qlt_bool x low then low else if Qlt_bool high x then high else x.

Definition vset (v : cVector3d) (i : Z) (q : Q) : cVector3d :=
  match i with
  | 0 => mkVec q (vy v) (vz v)
  | 1 => mkVec (vx v) q (vz v)
  | _ => mkVec (vx v) (vy v) q
  end.

(** The keys 4 to 9: move the maximal corner along axis [i] by [step],
    clamped, and set the minimal corner and the texture coordinates from
    it. *)
Definition resizeAxis (i : Z) (step : Q) (v : cVoxelObject) : cVoxelObject :=
  let value := cClamp (vget (m_maxCorner v) i + step) (1 # 100) (1 # 2) in
  mkVoxelObject (vset (m_minCorner v) i (- value))
                (vset (m_maxCorner v) i value)
                (vset (m_minTextureCoord v) i ((1 # 2) - value))
                (vset (m_maxTextureCoord v) i ((1 # 2) + value)).

Module Full.

(** The state the keys act on: the plugin fields above, the extents of the
    voxel object, the device pose [T_d], the local transform of the drill
    body and the display options. *)
Record Scene := mkScene {
  plugin : Plugin;
  m_voxelObj : cVoxelObject;
  T_d : cTransform;
  drillTransform : cTransform;
  m_showGoalProxySpheres : bool;
  m_suddenJump : bool;
  m_showDrill : bool;
  m_renderingMode : Z;
  m_opticalDensity : Q
}.

(** What the keys read and do not change: whether the haptic device is
    available, the camera vectors, [m_drillRate], and the library's
    rotation matrix for extrinsic Euler angles in degrees. *)
Record KeyContext := mkContext {
  isDeviceAvailable : bool;
  getUpVector : cVector3d;
  getRightVector : cVector3d;
  getLookVector : cVector3d;
  m_drillRate : Q;
  eulerRotationDeg : Z → Z → Z → cMatrix3d
}.

Inductive Key :=
| GLFW_KEY_W | GLFW_KEY_D | GLFW_KEY_S | GLFW_KEY_A | GLFW_KEY_K | GLFW_KEY_I
| GLFW_KEY_C | GLFW_KEY_P | GLFW_KEY_N
| GLFW_KEY_4 | GLFW_KEY_5 | GLFW_KEY_6 | GLFW_KEY_7 | GLFW_KEY_8 | GLFW_KEY_9
| GLFW_KEY_L | GLFW_KEY_U | GLFW_KEY_UP | GLFW_KEY_DOWN | GLFW_KEY_RIGHT
| GLFW_KEY_LEFT | GLFW_KEY_ENTER | GLFW_KEY_PAGE_UP | GLFW_KEY_PAGE_DOWN
| GLFW_KEY_HOME | GLFW_KEY_END
| GLFW_KEY_KP_5 | GLFW_KEY_KP_8 | GLFW_KEY_KP_4 | GLFW_KEY_KP_6
| GLFW_KEY_X | GLFW_KEY_B | GLFW_KEY_other.

Definition set_pose (t drill : cTransform) (s : Scene) : Scene :=
  mkScene (plugin s) (m_voxelObj s) t drill (m_showGoalProxySpheres s)
          (m_suddenJump s) (m_showDrill s) (m_renderingMode s) (m_opticalDensity s).

Definition set_voxelObj (v : cVoxelObject) (s : Scene) : Scene :=
  mkScene (plugin s) v (T_d s) (drillTransform s) (m_showGoalProxySpheres s)
          (m_suddenJump s) (m_showDrill s) (m_renderingMode s) (m_opticalDensity s).

Definition set_plugin (p : Plugin) (s : Scene) : Scene :=
  mkScene p (m_voxelObj s) (T_d s) (drillTransform s) (m_showGoalProxySpheres s)
          (m_suddenJump s) (m_showDrill s) (m_renderingMode s) (m_opticalDensity s).

Definition set_display (spheres jump drill : bool) (mode : Z) (density : Q) (s : Scene)
  : Scene :=
  mkScene (plugin s) (m_voxelObj s) (T_d s) (drillTransform s) spheres jump drill
          mode density.

Definition incrementDevicePos (ctx : KeyContext) (a_vel : cVector3d) (s : Scene) : Scene :=
  let t := setLocalPos (T_d s) (vadd (getLocalPos (T_d s)) a_vel) in
  set_pose t (if isDeviceAvailable ctx then drillTransform s else t) s.

Definition incrementDeviceRot (ctx : KeyContext) (a_rot : Z * Z * Z) (s : Scene) : Scene :=
  let '(rx, ry, rz) := a_rot in
  let R_cmd := eulerRotationDeg ctx rx ry rz in
  let R_cmd := mulMM (getLocalRot (T_d s)) R_cmd in
  let t := setLocalRot (T_d s) R_cmd in
  set_pose t (if isDeviceAvailable ctx then drillTransform s else t) s.

(** [ctrl] is [a_mods == GLFW_MOD_CONTROL].  Keys that only call setters of
    the voxel object's rendering (P, L, U, the arrows, HOME, END) leave the
    modelled state as it is, as does the rendering call of ENTER and of the
    page keys. *)
Definition keyboardUpdate (ctx : KeyContext) (ctrl : bool) (a_key : Key) (s : Scene)
  : Scene :=
  if ctrl then
    match a_key with
    | GLFW_KEY_W =>
        incrementDevicePos ctx (vscale (getUpVector ctx) (m_drillRate ctx)) s
    | GLFW_KEY_D =>
        incrementDevicePos ctx (vscale (getRightVector ctx) (m_drillRate ctx)) s
    | GLFW_KEY_S =>
        incrementDevicePos ctx (vneg (vscale (getUpVector ctx) (m_drillRate ctx))) s
    | GLFW_KEY_A =>
        incrementDevicePos ctx (vneg (vscale (getRightVector ctx) (m_drillRate ctx))) s
    | GLFW_KEY_K =>
        incrementDevicePos ctx (vneg (vscale (getLookVector ctx) (m_drillRate ctx))) s
    | GLFW_KEY_I =>
        incrementDevicePos ctx (vscale (getLookVector ctx) (m_drillRate ctx)) s
    | GLFW_KEY_C =>
        set_display (negb (m_showGoalProxySpheres s)) (m_suddenJump s) (m_showDrill s)
                    (m_renderingMode s) (m_opticalDensity s) s
    | GLFW_KEY_N => set_plugin (volumeObject_reset (plugin s)) s
    | _ => s
    end
  else
    match a_key with
    | GLFW_KEY_4 => set_voxelObj (resizeAxis 0 (- (5 # 1000)) (m_voxelObj s)) s
    | GLFW_KEY_5 => set_voxelObj (resizeAxis 0 (5 # 1000) (m_voxelObj s)) s
    | GLFW_KEY_6 => set_voxelObj (resizeAxis 1 (- (5 # 1000)) (m_voxelObj s)) s
    | GLFW_KEY_7 => set_voxelObj (resizeAxis 1 (5 # 1000) (m_voxelObj s)) s
    | GLFW_KEY_8 => set_voxelObj (resizeAxis 2 (- (5 # 1000)) (m_voxelObj s)) s
    | GLFW_KEY_9 => set_voxelObj (resizeAxis 2 (5 # 1000) (m_voxelObj s)) s
    | GLFW_KEY_ENTER =>
        let mode := m_renderingMode s + 1 in
        let mode := if 7 <? mode then 0 else mode in
        set_display (m_showGoalProxySpheres s) (m_suddenJump s) (m_showDrill s)
                    mode (m_opticalDensity s) s
    | GLFW_KEY_PAGE_UP =>
        set_display (m_showGoalProxySpheres s) (m_suddenJump s) (m_showDrill s)
                    (m_renderingMode s) (m_opticalDensity s + (1 # 10)) s
    | GLFW_KEY_PAGE_DOWN =>
        set_display (m_showGoalProxySpheres s) (m_suddenJump s) (m_showDrill s)
                    (m_renderingMode s) (m_opticalDensity s - (1 # 10)) s
    | GLFW_KEY_KP_5 => incrementDeviceRot ctx (0, 1, 0) s
    | GLFW_KEY_KP_8 => incrementDeviceRot ctx (0, -1, 0) s
    | GLFW_KEY_KP_4 => incrementDeviceRot ctx (0, 0, -1) s
    | GLFW_KEY_KP_6 => incrementDeviceRot ctx (0, 0, 1) s
    | GLFW_KEY_X =>
        set_display (m_showGoalProxySpheres s)
                    (if m_suddenJump s then false else true) (m_showDrill s)
                    (m_renderingMode s) (m_opticalDensity s) s
    | GLFW_KEY_B =>
        set_display (m_showGoalProxySpheres s) (m_suddenJump s)
                    (negb (m_showDrill s)) (m_renderingMode s) (m_opticalDensity s) s
    | GLFW_KEY_C => set_plugin (changeDrillSize (plugin s)) s
    | _ => s
    end.

(** The scene after a sequence of key presses, each with its modifier. *)
Definition pressKeys (ctx : KeyContext) (keys : list (bool * Key)) (s : Scene) : Scene :=
  fold_left (λ s k, keyboardUpdate ctx k.1 k.2 s) keys s.

End Full.

(** The keys that resize the volume, with their axis and step. *)
Definition resizeKeys : list (Full.Key * Z * Q) :=
  [(Full.GLFW_KEY_4, 0, (- (5 # 1000))%Q); (Full.GLFW_KEY_5, 0, 5 # 1000);
   (Full.GLFW_KEY_6, 1, (- (5 # 1000))%Q); (Full.GLFW_KEY_7, 1, 5 # 1000);
   (Full.GLFW_KEY_8, 2, (- (5 # 1000))%Q); (Full.GLFW_KEY_9, 2, 5 # 1000)].

(** The keys that go to [incrementDevicePos] (with control) and to
    [incrementDeviceRot] (without), each with its modifier. *)
Definition poseKeys : list (bool * Full.Key) :=
  [(true, Full.GLFW_KEY_W); (true, Full.GLFW_KEY_D); (true, Full.GLFW_KEY_S);
   (true, Full.GLFW_KEY_A); (true, Full.GLFW_KEY_K); (true, Full.GLFW_KEY_I);
   (false, Full.GLFW_KEY_KP_5); (false, Full.GLFW_KEY_KP_8);
   (false, Full.GLFW_KEY_KP_4); (false, Full.GLFW_KEY_KP_6)].

(** The extents along axis [i] are as a resize key leaves them: the maximal
    corner within 0.01 and 0.5, the minimal corner its opposite, and the
    texture coordinates 0.5 minus and plus it. *)
Definition resized (v : cVoxelObject) (i : Z) : Prop :=
  (1 # 100 <= vget (m_maxCorner v) i)%Q ∧ (vget (m_maxCorner v) i <= 1 # 2)%Q ∧
  vget (m_minCorner v) i = (- vget (m_maxCorner v) i)%Q ∧
  vget (m_minTextureCoord v) i = ((1 # 2) - vget (m_maxCorner v) i)%Q ∧
  vget (m_maxTextureCoord v) i = ((1 # 2) + vget (m_maxCorner v) i)%Q.

(** The extents along axis [i] are the same in [v] and [v']. *)
Definition sameExtent (v v' : cVoxelObject) (i : Z) : Prop :=
  vget (m_minCorner v') i = vget (m_minCorner v) i ∧
  vget (m_maxCorner v') i = vget (m_maxCorner v) i ∧
  vget (m_minTextureCoord v') i = vget (m_minTextureCoord v) i ∧
  vget (m_maxTextureCoord v') i = vget (m_maxTextureCoord v) i.

(** [x] lies between [a] and [b], whichever of the two is the larger. *)
Definition between (a x b : Q) : Prop :=
  ((a <= x)%Q ∧ (x <= b)%Q) ∨ ((b <= x)%Q ∧ (x <= a)%Q).

Definition vbetween (a x b : cVector3d) : Prop :=
  between (vx a) (vx x) (vx b) ∧ between (vy a) (vy x) (vy b) ∧
  between (vz a) (vz x) (vz b).

(** The position the drill follows in the shaft branch of
    [drillPosUpdate]. *)
Definition followPos (m_dX : Q) (r : ShaftReading) (drill : cTransform) : cVector3d :=
  vsub (targetProxyPos r)
       (vscale (vscale (getCol0 (getLocalRot drill)) m_dX) (inject_Z (targetIdx r))).

(** The radius that [changeDrillSize] sets for a drill size index. *)
Definition drillRadiusOf (idx : Z) : Q :=
  match idx with 0 => 403 # 10000 | 1 => 805 # 10000 | _ => 1208 # 10000 end.

(** The radius that [init] and [toolCursorInit] give the burr mesh and the
    tip cursor. *)
Definition initialRadius : Q := 43 # 1000.

(** Sample data: the identity rotation and a context for the keys. *)
Definition identityRot : cMatrix3d :=
  mkMat (mkVec 1 0 0) (mkVec 0 1 0) (mkVec 0 0 1).

(** The 3x3x3 bone volume with the corner table as [init] builds it for
    unit voxels, no rotation and the first voxel at the origin. *)
Definition initCube : Plugin :=
  mkPlugin (3, 3, 3)
           (tableLookup (loadVoxelCorners identityRot (mkVec 0 0 0) (1, 1, 1)%Q (3, 3, 3)))
           (mkImage 3 3 3 (λ _, m_boneColor)) (λ _, m_boneColor)
           1 1 0 2 0%Q 0 setEmpty false false false [].

Definition sampleContext : Full.KeyContext :=
  Full.mkContext false (mkVec 0 0 1) (mkVec 0 1 0) (mkVec 1 0 0) (1 # 50)
                 (λ _ _ _, identityRot).

Definition sampleScene : Full.Scene :=
  Full.mkScene boneCube unitVolume (mkTransform (mkVec 0 0 0) identityRot)
               (mkTransform (mkVec 0 0 0) identityRot) false false true 0 1%Q.


(** * Facts about the collision search *)

Section SearchFacts.

Variable p : Plugin.
Variable proxy : cVector3d.

Local Abbreviation rec := (recursiveCheckFromVoxel p proxy).
Local Abbreviation visit := (checkVoxel p proxy).

Lemma inRange_spec (x y z : Z) :
  inRange p (x, y, z) = true ↔
  0 ≤ x < getWidth (image p) ∧ 0 ≤ y < getHeight (image p) ∧
  0 ≤ z < getImageCount (image p).
Proof. unfold inRange. rewrite !andb_true_iff. lia. Qed.

Lemma neighbours_inRange (idx nb : Index) :
  nb ∈ neighbours p idx → inRange p nb = true.
Proof.
  destruct idx as [[x y] z]. unfold neighbours.
  rewrite list_elem_of_omap. intros ([[i j] k] & _ & H).
  destruct (_ && inRange p _) eqn:E; [|discriminate].
  injection H as <-. apply andb_true_iff in E. tauto.
Qed.

Lemma elem_of_grid (idx : Index) : idx ∈ grid p ↔ inRange p idx = true.
Proof.
  destruct idx as [[x y] z]. unfold grid, allIndices.
  rewrite elem_of_list_to_set, inRange_spec, list_elem_of_bind.
  setoid_rewrite list_elem_of_bind. setoid_rewrite list_elem_of_bind.
  setoid_rewrite elem_of_seqZ. setoid_rewrite list_elem_of_singleton.
  split.
  - intros (a & (b & (c & E & ?) & ?) & ?). injection E as -> -> ->. lia.
  - intros (? & ? & ?). exists x. split; [|lia]. exists y. split; [|lia].
    exists z. split; [done | lia].
Qed.

Lemma length_allIndices : length (allIndices p) = gridSize p.
Proof.
  unfold allIndices, gridSize.
  assert (Hb : ∀ (A B : Type) (f : A → list B) (n : nat) (l : list A),
             (∀ a, length (f a) = n) → length (l ≫= f) = (length l * n)%nat).
  { intros A B f n l Hf. induction l as [|a l IH]; csimpl; [done|].
    rewrite length_app, Hf, IH. lia. }
  rewrite (Hb _ _ _ (Z.to_nat (getHeight (image p)) * Z.to_nat (getImageCount (image p)))%nat).
  - rewrite length_seqZ. lia.
  - intros a. rewrite (Hb _ _ _ (Z.to_nat (getImageCount (image p)))).
    + by rewrite length_seqZ.
    + intros b. rewrite (Hb _ _ _ 1%nat); [|done]. rewrite length_seqZ. lia.
Qed.

Lemma size_grid : (size (grid p) ≤ gridSize p)%nat.
Proof.
  rewrite <- length_allIndices. unfold grid, size, set_size. simpl.
  apply submseteq_length, NoDup_submseteq; [apply NoDup_elements|].
  intros x. rewrite elem_of_elements, elem_of_list_to_set. done.
Qed.

(** An index already visited returns at once, leaving the state as it is. *)
Lemma recursiveCheck_visited (fuel : nat) (idx : Index) (s : SearchState) :
  idx ∈ alreadyChecked s → rec (S fuel) idx s = Some s.
Proof. intros H. simpl. by rewrite decide_True. Qed.

(** Unfolding of a call on an index not yet visited. *)
Lemma recursiveCheck_fresh (fuel : nat) (idx : Index) (s : SearchState) :
  idx ∉ alreadyChecked s →
  rec (S fuel) idx s =
    if negb (visit idx s).1 && negb (size (alreadyChecked (visit idx s).2) =? 1)%nat
    then Some (visit idx s).2
    else forEach (rec fuel) (neighbours p idx) (visit idx s).2.
Proof. intros H. simpl. by rewrite decide_False. Qed.

(** Invariant principle: a property of the state kept by every visit is
    kept by the whole search, when [C] holds of the first index and of
    all neighbours. *)
Section Invariant.
Variable I : SearchState → Prop.
Variable C : Index → Prop.
Hypothesis C_neighbours : ∀ idx nb, nb ∈ neighbours p idx → C nb.
Hypothesis I_visit :
  ∀ idx s, C idx → I s → idx ∉ alreadyChecked s → I (visit idx s).2.

Lemma forEach_invariant (f : Index → SearchState → option SearchState) :
  (∀ idx s s', C idx → I s → f idx s = Some s' → I s') →
  ∀ l s s', Forall C l → I s → forEach f l s = Some s' → I s'.
Proof.
  intros Hf l. induction l as [|a l IH]; intros s s' HC HI H; simpl in H.
  - by injection H as <-.
  - inversion_clear HC. destruct (f a s) as [s1|] eqn:E; [|discriminate].
    eauto.
Qed.

Lemma recursiveCheck_invariant (fuel : nat) :
  ∀ idx s s', C idx → I s → rec fuel idx s = Some s' → I s'.
Proof.
  induction fuel as [|fuel IH]; intros idx s s' HC HI H; [discriminate|].
  destruct (decide (idx ∈ alreadyChecked s)) as [Hin|Hin].
  - rewrite recursiveCheck_visited in H by done. by injection H as <-.
  - rewrite recursiveCheck_fresh in H by done.
    pose proof (I_visit idx s HC HI Hin) as HI1.
    destruct (_ && _).
    + by injection H as <-.
    + refine (forEach_invariant (rec fuel) IH _ _ _ _ HI1 H).
      apply Forall_forall. eauto.
Qed.
End Invariant.

(** *** Termination *)

Lemma checked_visit (idx : Index) (s : SearchState) :
  alreadyChecked (visit idx s).2 = {[idx]} ∪ alreadyChecked s.
Proof. reflexivity. Qed.

(** Number of voxels of the texture not yet visited. *)
Local Abbreviation unvisited s := (size (grid p ∖ alreadyChecked s)).

Lemma forEach_enough_fuel (f : Index → SearchState → option SearchState) (n : nat) :
  (∀ idx s, inRange p idx = true → (unvisited s < n)%nat →
            ∃ s', f idx s = Some s' ∧ alreadyChecked s ⊆ alreadyChecked s') →
  ∀ l s, Forall (λ i, inRange p i = true) l → (unvisited s < n)%nat →
         ∃ s', forEach f l s = Some s' ∧ alreadyChecked s ⊆ alreadyChecked s'.
Proof.
  intros Hf l. induction l as [|a l IH]; intros s Hl Hn; simpl.
  - by exists s.
  - inversion_clear Hl as [|? ? Ha Hl'].
    destruct (Hf a s Ha Hn) as (s1 & -> & Hsub).
    destruct (IH s1 Hl') as (s' & -> & Hsub').
    + eapply Nat.le_lt_trans; [|exact Hn]. apply subseteq_size. set_solver.
    + exists s'. split; [done | set_solver].
Qed.

(** A call on a voxel of the texture returns as soon as the fuel exceeds
    the number of voxels not yet visited. *)
Lemma recursiveCheck_enough_fuel (fuel : nat) :
  ∀ idx s, inRange p idx = true → (unvisited s < fuel)%nat →
           ∃ s', rec fuel idx s = Some s' ∧ alreadyChecked s ⊆ alreadyChecked s'.
Proof.
  induction fuel as [|fuel IH]; intros idx s Hr Hn; [lia|].
  destruct (decide (idx ∈ alreadyChecked s)) as [Hin|Hin].
  - rewrite recursiveCheck_visited by done. by exists s.
  - rewrite recursiveCheck_fresh by done.
    destruct (_ && _).
    + eexists. split; [done|]. rewrite checked_visit. set_solver.
    + destruct (forEach_enough_fuel (rec fuel) fuel IH (neighbours p idx) (visit idx s).2)
        as (s' & -> & Hsub).
      * apply Forall_forall. apply neighbours_inRange.
      * rewrite checked_visit.
        assert (grid p ∖ ({[idx]} ∪ alreadyChecked s) ⊂ grid p ∖ alreadyChecked s) as Hlt.
        { apply elem_of_grid in Hr. set_solver. }
        apply subset_size in Hlt. lia.
      * exists s'. split; [done|]. rewrite checked_visit in Hsub. set_solver.
Qed.

(** The search started by [findIndexOfAllCollidingVoxels] terminates, for
    any seed. *)
Lemma recursiveCheck_terminates (seed : Index) (s : SearchState) :
  alreadyChecked s = ∅ → ∃ s', rec (searchFuel p) seed s = Some s'.
Proof.
  intros He. unfold searchFuel.
  rewrite recursiveCheck_fresh by (rewrite He; set_solver).
  destruct (_ && _); [by eexists|].
  destruct (forEach_enough_fuel (rec (S (gridSize p))) (S (gridSize p))
              (recursiveCheck_enough_fuel _) (neighbours p seed) (visit seed s).2)
    as (s' & -> & _); [| |by eexists].
  - apply Forall_forall. apply neighbours_inRange.
  - pose proof size_grid.
    assert (unvisited (visit seed s).2 ≤ size (grid p))%nat
      by (apply subseteq_size; set_solver).
    lia.
Qed.

(** More fuel does not change the result. *)
Lemma forEach_fuel_mono (f g : Index → SearchState → option SearchState) :
  (∀ idx s s', f idx s = Some s' → g idx s = Some s') →
  ∀ l s s', forEach f l s = Some s' → forEach g l s = Some s'.
Proof.
  intros Hfg l. induction l as [|a l IH]; intros s s' H; simpl in *; [done|].
  destruct (f a s) as [s1|] eqn:E; [|discriminate].
  rewrite (Hfg _ _ _ E). by apply IH.
Qed.

Lemma recursiveCheck_fuel_mono (n : nat) :
  ∀ m idx s s', (n ≤ m)%nat → rec n idx s = Some s' → rec m idx s = Some s'.
Proof.
  induction n as [|n IH]; intros m idx s s' Hle H; [discriminate|].
  destruct m as [|m]; [lia|].
  destruct (decide (idx ∈ alreadyChecked s)) as [Hin|Hin].
  - rewrite recursiveCheck_visited in * by done. done.
  - rewrite recursiveCheck_fresh in * by done.
    destruct (_ && _); [done|].
    eapply forEach_fuel_mono; [|exact H].
    intros i t t'. apply IH. lia.
Qed.

(** *** What the search adds to its two containers *)

Lemma recursiveCheck_checked_mono (fuel : nat) (idx : Index) (s s' : SearchState) :
  rec fuel idx s = Some s' → alreadyChecked s ⊆ alreadyChecked s'.
Proof.
  apply (recursiveCheck_invariant (λ t, alreadyChecked s ⊆ alreadyChecked t) (λ _, True));
    [done | | done | done].
  intros i t _ H _. rewrite checked_visit. set_solver.
Qed.


Lemma pushedOnly_refl (s : SearchState) : pushedOnly p proxy s s.
Proof. exists []. by rewrite app_nil_r. Qed.

Lemma color_neq_zero (idx : Index) :
  color_neq (getVoxelColor (image p) idx) m_zeroColor = negb (isEmptyVoxel p idx).
Proof.
  unfold color_neq, isEmptyVoxel.
  destruct (decide (getVoxelColor (image p) idx = m_zeroColor)) as [E|E].
  - rewrite bool_decide_false, bool_decide_true; auto.
  - rewrite bool_decide_true, bool_decide_false; auto.
Qed.

Lemma list_visit (idx : Index) (s : SearchState) :
  listOfCollidingVoxels (visit idx s).2 =
    listOfCollidingVoxels s ++ (if contactVoxel p proxy idx then [idx] else []).
Proof.
  unfold checkVoxel, contactVoxel, inContactWithTool. simpl.
  rewrite color_neq_zero. destruct (_ && negb _); [done | by rewrite app_nil_r].
Qed.

Lemma pushedOnly_visit (s t : SearchState) (idx : Index) :
  pushedOnly p proxy s t → pushedOnly p proxy s (visit idx t).2.
Proof.
  intros (added & E & Hall). unfold pushedOnly. rewrite list_visit, E.
  destruct (contactVoxel p proxy idx) eqn:Ec.
  - exists (added ++ [idx]). rewrite app_assoc. split; [done|].
    apply Forall_app. split; [done|]. by constructor.
  - exists added. by rewrite app_nil_r.
Qed.

Lemma recursiveCheck_pushedOnly (fuel : nat) (idx : Index) (s s' : SearchState) :
  rec fuel idx s = Some s' → pushedOnly p proxy s s'.
Proof.
  apply (recursiveCheck_invariant (pushedOnly p proxy s) (λ _, True));
    [done | | done | apply pushedOnly_refl].
  intros i t _ H _. by apply pushedOnly_visit.
Qed.

(** A colliding, non-empty voxel not yet visited is pushed by its call. *)
Lemma recursiveCheck_pushes (fuel : nat) (idx : Index) (s s' : SearchState) :
  rec fuel idx s = Some s' → idx ∉ alreadyChecked s →
  contactVoxel p proxy idx = true →
  ∃ added, listOfCollidingVoxels s' = listOfCollidingVoxels s ++ idx :: added.
Proof.
  intros H Hin Hc. destruct fuel as [|fuel]; [discriminate|].
  rewrite recursiveCheck_fresh in H by done.
  assert (pushedOnly p proxy (visit idx s).2 s') as (added & E & _).
  { destruct (_ && _).
    - injection H as <-. apply pushedOnly_refl.
    - refine (forEach_invariant _ (λ _, True) (rec fuel) _ _ _ _ _ (pushedOnly_refl _) H).
      + intros i t t' _ Ht Hrec. destruct Ht as (a1 & E1 & F1).
        destruct (recursiveCheck_pushedOnly _ _ _ _ Hrec) as (a2 & E2 & F2).
        exists (a1 ++ a2). rewrite E2, E1, app_assoc. split; [done|].
        by apply Forall_app.
      + by apply Forall_forall. }
  exists added. rewrite E, list_visit, Hc. by rewrite <- app_assoc.
Qed.


Lemma logExact_visit (idx : Index) (s : SearchState) :
  logExact s → idx ∉ alreadyChecked s → logExact (visit idx s).2.
Proof.
  intros [Hnd Hiff] Hin. split; simpl.
  - apply NoDup_app. split_and!; [done | | apply NoDup_singleton].
    intros x Hx ->%list_elem_of_singleton. by apply Hin, Hiff.
  - intros i. rewrite elem_of_app, list_elem_of_singleton, Hiff. set_solver.
Qed.

Lemma recursiveCheck_logExact (fuel : nat) (idx : Index) (s s' : SearchState) :
  logExact s → rec fuel idx s = Some s' → logExact s'.
Proof.
  intros Hs. apply (recursiveCheck_invariant logExact (λ _, True)); [done | | done | done].
  intros i t _ Ht Hin. by apply logExact_visit.
Qed.

(** From a seed inside the texture, only voxels of the texture are visited. *)
Lemma recursiveCheck_in_grid (fuel : nat) (idx : Index) (s s' : SearchState) :
  inRange p idx = true → alreadyChecked s ⊆ grid p →
  rec fuel idx s = Some s' → alreadyChecked s' ⊆ grid p.
Proof.
  apply (recursiveCheck_invariant (λ t, alreadyChecked t ⊆ grid p)
                                  (λ i, inRange p i = true)).
  - apply neighbours_inRange.
  - intros i t Hi Ht _. rewrite checked_visit. apply elem_of_grid in Hi. set_solver.
Qed.

End SearchFacts.

(** * Facts about carving and the physics tick *)

Lemma carveAll_cons (i : Index) (l : list Index) (st : Plugin * bool) :
  carveAll (i :: l) st = carveVoxel i (carveAll l st).
Proof. reflexivity. Qed.


Lemma Carved_refl (p p' : Plugin) :
  published p' = published p → m_volumeUpdate p' = m_volumeUpdate p →
  originalVoxels p' = originalVoxels p → Carved p p' [].
Proof. intros H1 H2 H3. split; simpl; [by rewrite app_nil_r | done | done]. Qed.

Lemma Carved_trans (p p1 p2 : Plugin) (e1 e2 : list VoxelRemoved) :
  Carved p p1 e1 → Carved p1 p2 e2 → Carved p p2 (e1 ++ e2).
Proof.
  intros [A1 B1 C1] [A2 B2 C2]. split.
  - by rewrite A2, A1, app_assoc.
  - unfold encloseAll. rewrite B2, B1, map_app, fold_left_app. done.
  - congruence.
Qed.

Lemma Carved_newEvents (p p' : Plugin) (evs : list VoxelRemoved) :
  Carved p p' evs → newEvents p p' = evs.
Proof. intros [A _ _]. unfold newEvents. by rewrite A, drop_app_length. Qed.

(** The drain publishes one event per list entry, last entry first, each
    with the colour read at that moment; the flag records whether one of
    these colours is critical; the warning panel is not touched. *)
Lemma carveAll_effect (l : list Index) (p : Plugin) (f : bool) :
  ∃ evs, Carved p (carveAll l (p, f)).1 evs ∧
         map ev_index evs = rev l ∧
         (carveAll l (p, f)).2 = existsb criticalColor (map ev_color evs) || f ∧
         showPanel (carveAll l (p, f)).1 = showPanel p ∧
         showText (carveAll l (p, f)).1 = showText p ∧
         m_flagMarkVolumeForUpdate (carveAll l (p, f)).1 = m_flagMarkVolumeForUpdate p.
Proof.
  induction l as [|i l (evs & Hc & Hidx & Hf & Hp & Ht & Hm)].
  - exists []. split_and!; try done. by apply Carved_refl.
  - rewrite carveAll_cons. destruct (carveAll l (p, f)) as [q g]. simpl in *.
    exists (evs ++ [mkEvent i (getVoxelColor (image q) i)]). split_and!; try done.
    + apply (Carved_trans p q); [done|]. by split.
    + by rewrite map_app, Hidx.
    + rewrite map_app, existsb_app. simpl. unfold criticalColor. subst g.
      destruct (_ && _), (existsb _ _), f; done.
Qed.

(** After the drain every listed voxel is empty and no other voxel changed. *)
Lemma carveAll_colors (l : list Index) (p : Plugin) (f : bool) (i : Index) :
  getVoxelColor (image (carveAll l (p, f)).1) i =
    if bool_decide (i ∈ l) then m_zeroColor else getVoxelColor (image p) i.
Proof.
  induction l as [|a l IH]; [done|].
  rewrite carveAll_cons. destruct (carveAll l (p, f)) as [q g]. simpl in *.
  unfold getVoxelColor in *. simpl. destruct (decide (i = a)) as [->|Hne].
  - rewrite bool_decide_true; [done | left].
  - rewrite IH. destruct (decide (i ∈ l)).
    + rewrite !bool_decide_true; [done | by right | done].
    + rewrite !bool_decide_false; [done | | done]. by intros [?|?]%elem_of_cons.
Qed.

Lemma checkShaftCollision_frame (errs : list Q) (p : Plugin) :
  published (checkShaftCollision errs p) = published p ∧
  m_volumeUpdate (checkShaftCollision errs p) = m_volumeUpdate p ∧
  originalVoxels (checkShaftCollision errs p) = originalVoxels p ∧
  showPanel (checkShaftCollision errs p) = showPanel p ∧
  showText (checkShaftCollision errs p) = showText p ∧
  image (checkShaftCollision errs p) = image p ∧
  m_flagMarkVolumeForUpdate (checkShaftCollision errs p) = m_flagMarkVolumeForUpdate p.
Proof. unfold checkShaftCollision. by destruct (shaftLoop _ _ _). Qed.


Lemma findIndex_terminates (p : Plugin) (proxy : cVector3d) (seed : Index)
      (container : list Index) :
  ∃ s, findIndexOfAllCollidingVoxels p proxy seed container = Some s.
Proof. unfold findIndexOfAllCollidingVoxels. by apply recursiveCheck_terminates. Qed.

(** The tick unfolded, the search having returned. *)
Lemma physicsUpdate_unfold (inp : TickInput) (p : Plugin) :
  let q := checkShaftCollision (errors inp) p in
  if carvingTick inp p then
    ∃ s, findIndexOfAllCollidingVoxels q (tipProxy inp) (firstContact inp) [] = Some s ∧
         physicsUpdate inp p =
           Some (set_flagMark true
                   (if (carveAll (listOfCollidingVoxels s) (q, false)).2
                    then set_warning true (carveAll (listOfCollidingVoxels s) (q, false)).1
                    else (carveAll (listOfCollidingVoxels s) (q, false)).1))
  else physicsUpdate inp p = Some (set_warning false q).
Proof.
  intros q. unfold carvingTick, physicsUpdate. fold q.
  destruct (isInContact inp && _); [|done].
  destruct (findIndex_terminates q (tipProxy inp) (firstContact inp) []) as [s Hs].
  exists s. split; [done|]. rewrite Hs. simpl.
  by destruct (carveAll _ _) as [r []].
Qed.

Lemma physicsUpdate_total (inp : TickInput) (p : Plugin) :
  ∃ p', physicsUpdate inp p = Some p'.
Proof.
  pose proof (physicsUpdate_unfold inp p) as H. simpl in H.
  destruct (carvingTick inp p); [destruct H as (s & _ & ->)|]; eauto.
Qed.

(** Effect of one tick on telemetry, dirty region and warning panel. *)
Lemma physicsUpdate_effect (inp : TickInput) (p : Plugin) :
  ∃ p' evs, physicsUpdate inp p = Some p' ∧ Carved p p' evs ∧
    (evs = [] ∨ m_flagMarkVolumeForUpdate p' = true) ∧
    (m_flagMarkVolumeForUpdate p = true → m_flagMarkVolumeForUpdate p' = true) ∧
    showPanel p' =
      (if carvingTick inp p
       then existsb criticalColor (map ev_color evs) || showPanel p else false) ∧
    showText p' =
      (if carvingTick inp p
       then existsb criticalColor (map ev_color evs) || showText p else false).
Proof.
  pose proof (physicsUpdate_unfold inp p) as H. simpl in H.
  destruct (checkShaftCollision_frame (errors inp) p) as (F1 & F2 & F3 & F4 & F5 & _ & F6).
  destruct (carvingTick inp p).
  - destruct H as (s & _ & ->).
    destruct (carveAll_effect (listOfCollidingVoxels s)
                (checkShaftCollision (errors inp) p) false)
      as (evs & [A B C] & _ & Hf & Hp & Ht & _).
    eexists _, evs. split; [done|]. rewrite Hf, orb_false_r.
    rewrite F1 in A. rewrite F2 in B. rewrite F3 in C. rewrite F4 in Hp. rewrite F5 in Ht.
    destruct (existsb _ _); simpl; (split_and!; [by split | by right | done | done | done]).
  - rewrite H. eexists _, []. split; [done|].
    split_and!; [by apply Carved_refl | by left | simpl; congruence | done | done].
Qed.

Lemma runTicks_effect (ticks : list TickInput) :
  ∀ p, ∃ p' evs, runTicks ticks p = Some p' ∧ Carved p p' evs ∧
                 (evs = [] ∨ m_flagMarkVolumeForUpdate p' = true) ∧
                 (m_flagMarkVolumeForUpdate p = true → m_flagMarkVolumeForUpdate p' = true).
Proof.
  induction ticks as [|t ticks IH]; intros p; simpl.
  - exists p, []. split_and!; [done | by apply Carved_refl | by left | done].
  - destruct (physicsUpdate_effect t p) as (p1 & e1 & -> & H1 & Hs1 & Hm1 & _).
    simpl. destruct (IH p1) as (p2 & e2 & -> & H2 & Hs2 & Hm2).
    exists p2, (e1 ++ e2). split_and!; [done | by eapply Carved_trans | | auto].
    destruct Hs1 as [->|?]; [done | right; auto].
Qed.

(** * The contact list *)

Lemma contactVoxel_spec (p : Plugin) (proxy : cVector3d) (i : Index) :
  contactVoxel p proxy i = true ↔
  0 < numCornersInTool p proxy i < 8 ∧ getVoxelColor (image p) i ≠ m_zeroColor.
Proof.
  unfold contactVoxel, inContactWithTool, isEmptyVoxel.
  rewrite !andb_true_iff, !Z.ltb_lt, negb_true_iff, bool_decide_eq_false. tauto.
Qed.

(** Shape of the list returned by [findIndexOfAllCollidingVoxels]: the
    container, the seed, then the voxels pushed by the recursion, which
    starts with the seed itself when the seed is in contact and not empty. *)
Lemma findIndex_shape (p : Plugin) (proxy : cVector3d) (seed : Index)
      (container : list Index) :
  ∃ s added,
    findIndexOfAllCollidingVoxels p proxy seed container = Some s ∧
    listOfCollidingVoxels s = container ++ seed :: added ∧
    Forall (λ i, contactVoxel p proxy i = true) added ∧
    (contactVoxel p proxy seed = true → ∃ rest, added = seed :: rest).
Proof.
  destruct (findIndex_terminates p proxy seed container) as [s Hs].
  exists s. unfold findIndexOfAllCollidingVoxels in *.
  destruct (recursiveCheck_pushedOnly _ _ _ _ _ _ Hs) as (added & E & Hall).
  simpl in E. rewrite <- app_assoc in E. exists added. split_and!; try done.
  intros Hc.
  destruct (recursiveCheck_pushes _ _ _ _ _ _ Hs) as (rest & E'); [set_solver | done |].
  simpl in E'. rewrite E, <- !app_assoc in E'. simpl in E'.
  apply app_inv_head in E'. injection E' as ->. by exists rest.
Qed.

(** C1, as the code has it: the list returned by the collision search is
    the seed voxel, pushed without any test, followed by voxels that all
    have a corner-in-sphere count strictly between 0 and 8 and a colour
    other than EMPTY. *)
Theorem contact_list_after_seed (p : Plugin) (proxy : cVector3d) (seed : Index)
        (container : list Index) :
  ∃ s added,
    findIndexOfAllCollidingVoxels p proxy seed container = Some s ∧
    listOfCollidingVoxels s = container ++ seed :: added ∧
    Forall (λ i, 0 < numCornersInTool p proxy i < 8 ∧
                 getVoxelColor (image p) i ≠ m_zeroColor) added.
Proof.
  destruct (findIndex_shape p proxy seed container) as (s & added & Hs & E & Hall & _).
  exists s, added. split; [exact Hs|]. split; [exact E|].
  eapply Forall_impl; [exact Hall|].
  intros i. exact (proj1 (contactVoxel_spec p proxy i)).
Qed.

(** C1 as stated fails: with the burr around the whole seed voxel, all
    eight corners of the seed are inside the sphere and the seed is still
    in the returned list. *)
Lemma seed_listed_with_eight_corners :
  ∃ s, findIndexOfAllCollidingVoxels boneCube cubeCentre (1, 1, 1) [] = Some s ∧
       (1, 1, 1) ∈ listOfCollidingVoxels s ∧
       numCornersInTool boneCube cubeCentre (1, 1, 1) = 8.
Proof.
  eexists. split; [vm_compute; reflexivity|]. split; [apply list_elem_of_here|].
  vm_compute. reflexivity.
Qed.

(** C10: the seed reported by the solver is the first element appended, so
    the returned list is never empty and contains the seed whatever its
    corner count and colour; the seed occurs a second time, right after the
    first, exactly when it is in contact and not empty. *)
Theorem seed_pushed_first (p : Plugin) (proxy : cVector3d) (seed : Index)
        (container : list Index) :
  ∃ s added,
    findIndexOfAllCollidingVoxels p proxy seed container = Some s ∧
    listOfCollidingVoxels s = container ++ seed :: added ∧
    listOfCollidingVoxels s ≠ [] ∧
    seed ∈ listOfCollidingVoxels s ∧
    (seed ∈ added ↔
       0 < numCornersInTool p proxy seed < 8 ∧
       getVoxelColor (image p) seed ≠ m_zeroColor) ∧
    (seed ∈ added ↔ head added = Some seed).
Proof.
  destruct (findIndex_shape p proxy seed container) as (s & added & Hs & E & Hall & Hfst).
  exists s, added. rewrite E. split; [exact Hs|]. split; [reflexivity|]. split_and!.
  - by destruct container.
  - apply elem_of_app. right. left.
  - rewrite <- contactVoxel_spec. split.
    + intros Hin. by apply (proj1 (Forall_forall _ _) Hall).
    + intros Hc. destruct (Hfst Hc) as [rest ->]. left.
  - split.
    + intros Hin. destruct Hfst as [rest ->]; [|done].
      by apply (proj1 (Forall_forall _ _) Hall).
    + destruct added; [done|]. simpl. intros [= ->]. left.
Qed.

(** * Termination and the visited set *)

(** C3: from a seed inside the texture the search returns, with the same
    result for any larger depth bound; each voxel is tested at most once
    (the log of tested voxels has no repetition and is the visited set, and
    a call on a visited index returns at once without change); the visited
    set holds indices within the dimensions only, so at most Dx*Dy*Dz of
    them; the neighbour loop recurses on such indices only. *)
Theorem search_terminates_visiting_once (p : Plugin) (proxy : cVector3d)
        (seed : Index) (container : list Index) :
  inRange p seed = true →
  ∃ s,
    findIndexOfAllCollidingVoxels p proxy seed container = Some s ∧
    (∀ fuel, (searchFuel p ≤ fuel)%nat →
             recursiveCheckFromVoxel p proxy fuel seed
               (mkSearch ∅ (container ++ [seed]) []) = Some s) ∧
    NoDup (evaluated s) ∧
    (∀ i, i ∈ evaluated s ↔ i ∈ alreadyChecked s) ∧
    (∀ fuel idx t, idx ∈ alreadyChecked t →
                   recursiveCheckFromVoxel p proxy (S fuel) idx t = Some t) ∧
    Z.of_nat (size (alreadyChecked s))
      ≤ getWidth (image p) * getHeight (image p) * getImageCount (image p) ∧
    (∀ i, i ∈ alreadyChecked s → inRange p i = true) ∧
    (∀ idx nb, nb ∈ neighbours p idx → inRange p nb = true).
Proof.
  intros Hseed.
  destruct (findIndex_terminates p proxy seed container) as [s Hs].
  exists s. unfold findIndexOfAllCollidingVoxels in *.
  assert (logExact s) as [Hnd Hlog].
  { eapply recursiveCheck_logExact; [|exact Hs]. split; simpl; [constructor|].
    intros i. set_solver. }
  assert (alreadyChecked s ⊆ grid p) as Hgrid.
  { eapply recursiveCheck_in_grid; [exact Hseed | | exact Hs]. simpl. set_solver. }
  split; [exact Hs|].
  split; [intros fuel Hfuel; by apply (recursiveCheck_fuel_mono p proxy (searchFuel p))|].
  split; [exact Hnd|]. split; [exact Hlog|]. split_and!.
  - intros fuel idx t. apply recursiveCheck_visited.
  - pose proof (size_grid p) as Hg. apply subseteq_size in Hgrid.
    destruct seed as [[x y] z]. apply inRange_spec in Hseed. unfold gridSize in Hg.
    assert (Z.of_nat (size (alreadyChecked s)) ≤
            Z.of_nat (Z.to_nat (getWidth (image p)) * Z.to_nat (getHeight (image p))
                      * Z.to_nat (getImageCount (image p)))) as Hle by lia.
    rewrite !Nat2Z.inj_mul, !Z2Nat.id in Hle by lia. exact Hle.
  - intros i Hi. by apply elem_of_grid, Hgrid.
  - apply neighbours_inRange.
Qed.

Lemma search_terminates_visiting_once_witness :
  ∃ s, findIndexOfAllCollidingVoxels boneCube cubeCentre (1, 1, 1) [] = Some s ∧
       NoDup (evaluated s) ∧
       Z.of_nat (size (alreadyChecked s)) ≤ 27.
Proof.
  destruct (search_terminates_visiting_once boneCube cubeCentre (1, 1, 1) [])
    as (s & Hs & _ & Hnd & _ & _ & Hsz & _); [reflexivity|].
  exists s. split_and!; [exact Hs | exact Hnd | exact Hsz].
Defined.

(** * Carving twice *)

(** C2 fails on the code.  First tick: the seed (1,1,1) is in contact and
    is bone; it is published twice in that tick, the second time with the
    EMPTY colour it has just been given.  Second tick: should the solver
    report the same, now empty, voxel as seed, it is listed and published
    again. *)
Lemma seed_published_twice :
  let p1 := afterTick tickCorner1 boneCube in
  let p2 := afterTick tickCentre p1 in
  physicsUpdate tickCorner1 boneCube = Some p1 ∧
  filter (λ e, bool_decide (ev_index e = (1, 1, 1))) (newEvents boneCube p1)
    = [mkEvent (1, 1, 1) m_boneColor; mkEvent (1, 1, 1) m_zeroColor] ∧
  getVoxelColor (image p1) (1, 1, 1) = m_zeroColor ∧
  physicsUpdate tickCentre p1 = Some p2 ∧
  filter (λ e, bool_decide (ev_index e = (1, 1, 1))) (newEvents p1 p2)
    = [mkEvent (1, 1, 1) m_zeroColor].
Proof. split_and!; vm_compute; reflexivity. Qed.

(** * The warning panel *)

(** C4, as the code has it: on a tick that carves (tip in contact and
    target cursor) the warning is shown if a voxel drained in that tick had
    a colour that is neither bone nor EMPTY, and is otherwise left as it
    was; on any other tick it is hidden.  So a warning is lowered only by a
    tick that does not carve. *)
Theorem warning_after_tick (inp : TickInput) (p : Plugin) :
  ∃ p', physicsUpdate inp p = Some p' ∧
    showPanel p' =
      (if carvingTick inp p
       then existsb criticalColor (map ev_color (newEvents p p')) || showPanel p
       else false) ∧
    showText p' =
      (if carvingTick inp p
       then existsb criticalColor (map ev_color (newEvents p p')) || showText p
       else false).
Proof.
  destruct (physicsUpdate_effect inp p) as (p' & evs & Hp & Hc & _ & _ & Hs & Ht).
  exists p'. rewrite (Carved_newEvents _ _ _ Hc). by split_and!.
Qed.

(** C4 as stated fails: the first tick drains a voxel of another tissue and
    raises the warning; the second tick drains bone and empty voxels only,
    and the warning is still shown. *)
Lemma warning_not_lowered :
  let p1 := afterTick tickCorner1 nerveCube in
  let p2 := afterTick tickCorner2 p1 in
  physicsUpdate tickCorner1 nerveCube = Some p1 ∧ showPanel p1 = true ∧
  physicsUpdate tickCorner2 p1 = Some p2 ∧
  existsb criticalColor (map ev_color (newEvents p1 p2)) = false ∧
  showPanel p2 = true.
Proof. split_and!; vm_compute; reflexivity. Qed.

(** * The dirty region *)

Lemma boxContains_enclose_self (b : Box) (pt : cVector3d) :
  boxContains (enclose b pt) pt.
Proof.
  destruct b as [[lo hi]|]; simpl.
  - split_and!; auto using Q.le_min_r, Q.le_max_r.
  - split_and!; apply Qle_refl.
Qed.

Lemma boxContains_enclose_mono (b : Box) (pt q : cVector3d) :
  boxContains b q → boxContains (enclose b pt) q.
Proof.
  destruct b as [[lo hi]|]; simpl; [|done].
  intros ([? ?] & [? ?] & [? ?]).
  split_and!; (eapply Qle_trans; [apply Q.le_min_l | done])
              || (eapply Qle_trans; [|apply Q.le_max_l]; done).
Qed.

Lemma encloseAll_mono (l : list Index) (b : Box) (q : cVector3d) :
  boxContains b q → boxContains (encloseAll b l) q.
Proof.
  revert b. induction l as [|a l IH]; intros b Hb; simpl; [done|].
  by apply IH, boxContains_enclose_mono.
Qed.

(** Every enclosed index is inside the region. *)
Lemma encloseAll_contains (l : list Index) (b : Box) :
  Forall (λ i, boxContains (encloseAll b l) (indexVec i)) l.
Proof.
  revert b. induction l as [|a l IH]; intros b; constructor.
  - simpl. apply encloseAll_mono, boxContains_enclose_self.
  - apply IH.
Qed.

Lemma Qmin_inject_Z (a b : Z) : Qmin (inject_Z a) (inject_Z b) = inject_Z (Z.min a b).
Proof.
  unfold Qmin, GenericMinMax.gmin, Qcompare, Z.min. simpl. rewrite !Z.mul_1_r.
  by destruct (a ?= b).
Qed.

Lemma Qmax_inject_Z (a b : Z) : Qmax (inject_Z a) (inject_Z b) = inject_Z (Z.max a b).
Proof.
  unfold Qmax, GenericMinMax.gmax, Qcompare, Z.max. simpl. rewrite !Z.mul_1_r.
  rewrite (Z.compare_antisym b a). by destruct (b ?= a).
Qed.

Lemma enclose_indexVec (lo hi i : Index) :
  enclose (Some (indexVec lo, indexVec hi)) (indexVec i)
  = Some (indexVec (idxMin lo i), indexVec (idxMax hi i)).
Proof.
  destruct lo as [[a b] c], hi as [[d e] f], i as [[x y] z]. simpl.
  unfold vmin, vmax. simpl. by rewrite !Qmin_inject_Z, !Qmax_inject_Z.
Qed.

Lemma encloseAll_cons (b : Box) (i : Index) (l : list Index) :
  encloseAll b (i :: l) = encloseAll (enclose b (indexVec i)) l.
Proof. reflexivity. Qed.

Lemma encloseAll_indexVec (l : list Index) :
  ∀ lo hi, encloseAll (Some (indexVec lo, indexVec hi)) l
           = Some (indexVec (fold_left idxMin l lo), indexVec (fold_left idxMax l hi)).
Proof.
  induction l as [|a l IH]; intros lo hi; [done|].
  by rewrite encloseAll_cons, enclose_indexVec, IH.
Qed.

(** From the empty region, enclosing gives exactly the index-wise bounding
    box. *)
Lemma encloseAll_empty (l : list Index) : encloseAll setEmpty l = boxOfIndices l.
Proof.
  destruct l as [|i l]; [done|].
  rewrite encloseAll_cons. unfold boxOfIndices, boundingBox.
  apply (encloseAll_indexVec l i i).
Qed.

(** Whatever the interleaving of the two critical sections, the region
    holds the indices enclosed since the last refresh. *)
Lemma regionAfter_sinceRefresh (trace : list RegionAction) (b : Box) :
  regionAfter trace b =
    encloseAll (if refreshed trace then setEmpty else b) (sinceRefresh trace).
Proof.
  induction trace as [|a trace IH] using rev_ind; [done|].
  unfold regionAfter, sinceRefresh, refreshed in *.
  rewrite !fold_left_app, existsb_app. simpl. rewrite IH.
  destruct a as [i|]; simpl.
  - rewrite orb_false_r. unfold encloseAll. by rewrite fold_left_app.
  - by rewrite orb_true_r.
Qed.

Lemma graphicsUpdate_published (p : Plugin) :
  published (graphicsUpdate p).1 = published p.
Proof. unfold graphicsUpdate. by destruct (m_flagMarkVolumeForUpdate p). Qed.

(** * Volume reset *)

(** C8, as the code has it: after any run of ticks the reset key gives every
    voxel the colour it was loaded with, and leaves the dirty region (and
    the flag for the refresh) as they were. *)
Theorem reset_restores_colors (ticks : list TickInput) (p : Plugin) :
  ∃ p1, runTicks ticks p = Some p1 ∧
    (∀ i, getVoxelColor (image (keyboardUpdate true GLFW_KEY_N p1)) i
          = originalVoxels p i) ∧
    m_volumeUpdate (keyboardUpdate true GLFW_KEY_N p1) = m_volumeUpdate p1 ∧
    m_flagMarkVolumeForUpdate (keyboardUpdate true GLFW_KEY_N p1)
      = m_flagMarkVolumeForUpdate p1.
Proof.
  destruct (runTicks_effect ticks p) as (p1 & evs & Hp1 & [_ _ Ho] & _).
  exists p1. split_and!; [done | | done | done].
  intros i. simpl. unfold getVoxelColor. simpl. by rewrite Ho.
Qed.

(** C8 as stated fails: after a tick that removed voxels, the reset key
    restores the colours but the dirty region is not empty. *)
Lemma reset_keeps_dirty_region :
  let p1 := afterTick tickCorner1 boneCube in
  physicsUpdate tickCorner1 boneCube = Some p1 ∧
  getVoxelColor (image p1) (0, 0, 0) = m_zeroColor ∧
  getVoxelColor (image (keyboardUpdate true GLFW_KEY_N p1)) (0, 0, 0) = m_boneColor ∧
  m_volumeUpdate (keyboardUpdate true GLFW_KEY_N p1)
    = boxOfIndices [(0, 0, 0); (1, 1, 1)] ∧
  m_volumeUpdate (keyboardUpdate true GLFW_KEY_N p1) ≠ setEmpty.
Proof.
  split_and!; try (vm_compute; reflexivity). vm_compute. discriminate.
Qed.

(** * The shaft arbiter *)

Lemma Qlt_bool_true (a b : Q) : Qlt_bool a b = true ↔ (a < b)%Q.
Proof.
  unfold Qlt_bool. rewrite negb_true_iff, <- not_true_iff_false, Qle_bool_iff.
  split; [apply Qnot_le_lt | apply Qlt_not_le].
Qed.

(** On distances the two [abs] of the comparison do nothing. *)
Lemma shaft_test (m e : Q) :
  (0 <= m)%Q → (0 <= e)%Q →
  Qlt_bool (Qabs (m + errorEps)) (Qabs e) = true ↔ (m + errorEps < e)%Q.
Proof.
  intros Hm He. rewrite Qlt_bool_true.
  assert (0 <= m + errorEps)%Q as Hme.
  { apply Qle_trans with (m + 0)%Q; [by rewrite Qplus_0_r|].
    apply Qplus_le_r. discriminate. }
  by rewrite (Qabs_pos _ Hme), (Qabs_pos _ He).
Qed.

(** The loop, one cursor further: the cursor becomes the target exactly when
    its error exceeds the running maximum plus epsilon. *)
Lemma shaftLoop_snoc (pre : list Q) (e : Q) :
  ∀ i acc,
    shaftLoop i (pre ++ [e]) acc =
      if Qlt_bool (Qabs ((shaftLoop i pre acc).1 + errorEps)) (Qabs e)
      then (e, i + Z.of_nat (length pre)) else shaftLoop i pre acc.
Proof.
  induction pre as [|a pre IH]; intros i acc; simpl.
  - by rewrite Z.add_0_r.
  - rewrite IH. replace (i + 1 + Z.of_nat (length pre)) with (i + Z.pos (Pos.of_succ_nat (length pre))) by lia.
    done.
Qed.


Lemma shaftLoop_inv (errs : list Q) :
  Forall (λ e, 0 <= e)%Q errs → shaftInv errs (shaftLoop 0 errs (0%Q, 0)).
Proof.
  induction errs as [|e pre IH] using rev_ind; intros Hpos.
  - left. by split_and!.
  - apply Forall_app in Hpos as [Hpre He]. inversion_clear He as [|? ? He0 _].
    specialize (IH Hpre). rewrite shaftLoop_snoc.
    destruct (shaftLoop 0 pre (0%Q, 0)) as [m k]. simpl fst. simpl in IH.
    assert (0 <= m)%Q as Hm.
    { destruct IH as [(-> & _)|(_ & _ & Hlt & _)]; [discriminate|].
      unfold errorEps in Hlt. lra. }
    assert (Forall (λ x, x <= m + errorEps)%Q pre) as Hbound.
    { destruct IH as [(-> & _ & Hall)|(_ & _ & _ & Hall & _)]; [|done].
      eapply Forall_impl; [exact Hall|]. simpl. intros x Hx. lra. }
    destruct (Qlt_bool _ _) eqn:T.
    + apply shaft_test in T; [|done|done]. right.
      rewrite length_app. simpl. split_and!.
      * lia.
      * lia.
      * rewrite Z.add_0_l, Nat2Z.id, lookup_app_r by lia.
        by rewrite Nat.sub_diag.
      * unfold errorEps in *. lra.
      * apply Forall_app. split.
        -- eapply Forall_impl; [exact Hbound|]. simpl. intros x Hx.
           unfold errorEps in *. lra.
        -- constructor; [|done]. unfold errorEps. lra.
      * intros j ej Hj Hl. rewrite Z.add_0_l, Nat2Z.id in Hj.
        rewrite lookup_app_l in Hl by done.
        apply list_elem_of_lookup_2 in Hl.
        pose proof (proj1 (Forall_forall _ _) Hbound _ Hl) as Hle. simpl in Hle. lra.
      * intros e0 Hl Hgt. destruct pre as [|a pre']; [left; simpl; lia|right].
        simpl in Hl. injection Hl as ->.
        destruct IH as [(_ & _ & Hall)|(_ & Hk & _ & _ & _ & Hfirst)].
        -- inversion_clear Hall. lra.
        -- destruct (Hfirst e0 eq_refl Hgt) as [->|Hlt]; [|unfold errorEps in *; lra].
           simpl in Hk. injection Hk as ->. done.
    + assert (e <= m + errorEps)%Q as Hle.
      { apply Qnot_lt_le. intros Hlt. apply shaft_test in Hlt; [|done|done].
        congruence. }
      destruct IH as [(-> & -> & Hall)|(Hk & Hl & Hlt & Hall & Hlow & Hfirst)].
      * left. split_and!; [done | done |]. apply Forall_app. split; [done|].
        constructor; [|done]. lra.
      * right. rewrite length_app. simpl. split_and!.
        -- lia.
        -- lia.
        -- rewrite lookup_app_l by lia. done.
        -- done.
        -- apply Forall_app. split; [done|]. by constructor.
        -- intros j ej Hj Hlj. rewrite lookup_app_l in Hlj by lia. eauto.
        -- intros e0 Hl0. rewrite lookup_app_l in Hl0 by lia. eauto.
Qed.

Lemma checkShaftCollision_fields (errs : list Q) (p : Plugin) :
  m_maxError (checkShaftCollision errs p) = (shaftLoop 0 errs (0%Q, 0)).1 ∧
  m_targetToolCursorIdx (checkShaftCollision errs p) = (shaftLoop 0 errs (0%Q, 0)).2.
Proof. unfold checkShaftCollision. by destruct (shaftLoop _ _ _). Qed.

(** C5, as the code has it.  The target is a function of the distances
    alone; the tip is the default; one cursor further, that cursor becomes
    the target exactly when its error exceeds by more than epsilon the
    running maximum, which is the error of the last cursor accepted (0 if
    none).  As a result no error exceeds the selected one by more than
    epsilon, every lower-indexed cursor has a strictly smaller error than
    the selected one, and once the tip's error exceeds epsilon, errors
    within epsilon of the tip's leave the tip selected. *)
Theorem shaft_target_selection (errs : list Q) (p q : Plugin) :
  Forall (λ e, 0 <= e)%Q errs →
  let target := m_targetToolCursorIdx (checkShaftCollision errs p) in
  target = m_targetToolCursorIdx (checkShaftCollision errs q) ∧
  m_targetToolCursorIdx (checkShaftCollision [] p) = 0 ∧
  (∀ pre e,
     m_targetToolCursorIdx (checkShaftCollision (pre ++ [e]) p) =
       if Qlt_bool (Qabs (m_maxError (checkShaftCollision pre p) + errorEps)) (Qabs e)
       then Z.of_nat (length pre)
       else m_targetToolCursorIdx (checkShaftCollision pre p)) ∧
  (∀ pre e,
     m_maxError (checkShaftCollision (pre ++ [e]) p) =
       if Qlt_bool (Qabs (m_maxError (checkShaftCollision pre p) + errorEps)) (Qabs e)
       then e else m_maxError (checkShaftCollision pre p)) ∧
  0 ≤ target ∧ (errs ≠ [] → target < Z.of_nat (length errs)) ∧
  (∀ et, errs !! Z.to_nat target = Some et →
         Forall (λ e, e <= et + errorEps)%Q errs ∧
         (∀ j ej, (j < Z.to_nat target)%nat → errs !! j = Some ej → (ej < et)%Q)) ∧
  (∀ e0, errs !! 0%nat = Some e0 → (errorEps < e0)%Q →
         Forall (λ e, e <= e0 + errorEps)%Q errs → target = 0).
Proof.
  intros Hpos target. subst target.
  pose proof (shaftLoop_inv errs Hpos) as Hinv.
  destruct (checkShaftCollision_fields errs p) as [_ ->].
  destruct (checkShaftCollision_fields errs q) as [_ ->].
  split; [done|]. split; [done|]. split.
  { intros pre e.
    destruct (checkShaftCollision_fields (pre ++ [e]) p) as [_ ->].
    destruct (checkShaftCollision_fields pre p) as [-> ->].
    rewrite shaftLoop_snoc. by destruct (Qlt_bool _ _). }
  split.
  { intros pre e.
    destruct (checkShaftCollision_fields (pre ++ [e]) p) as [-> _].
    destruct (checkShaftCollision_fields pre p) as [-> _].
    rewrite shaftLoop_snoc. by destruct (Qlt_bool _ _). }
  destruct (shaftLoop 0 errs (0%Q, 0)) as [m k]. simpl in *.
  destruct Hinv as [(-> & -> & Hall)|(Hk & Hl & Hlt & Hall & Hlow & Hfirst)].
  - split; [done|]. split; [destruct errs; [done | simpl; lia]|]. split; [|done].
    intros et Het. split; [|intros; lia].
    assert (0 <= et)%Q.
    { apply list_elem_of_lookup_2 in Het.
      exact (proj1 (Forall_forall _ _) Hpos _ Het). }
    eapply Forall_impl; [exact Hall|]. simpl. intros x Hx. lra.
  - split; [lia|]. split; [lia|]. split.
    + intros et Het. assert (et = m) as -> by congruence. by split.
    + intros e0 He0 Hgt Hties.
      destruct (Hfirst e0 He0 Hgt) as [?|Hbig]; [done|].
      apply list_elem_of_lookup_2 in Hl.
      pose proof (proj1 (Forall_forall _ _) Hties _ Hl) as Hle. simpl in Hle. lra.
Qed.

Lemma shaft_target_selection_witness :
  0 ≤ m_targetToolCursorIdx (checkShaftCollision [1; 2; 2]%Q boneCube).
Proof.
  apply (shaft_target_selection [1; 2; 2]%Q boneCube boneCube).
  repeat constructor; discriminate.
Defined.

(** C5 as stated fails.  Errors 0.00001 and 0.000015 are within epsilon of
    each other and cursor 1 is selected; with errors 1, 1.000005 and
    1.000012, cursor 2 is selected although it exceeds cursor 1 by less
    than epsilon. *)
Lemma shaft_target_within_epsilon :
  m_targetToolCursorIdx
    (checkShaftCollision [1 # 100000; 15 # 1000000]%Q boneCube) = 1 ∧
  ¬ ((1 # 100000) + errorEps < 15 # 1000000)%Q ∧
  m_targetToolCursorIdx
    (checkShaftCollision [1; 1000005 # 1000000; 1000012 # 1000000]%Q boneCube) = 2 ∧
  ¬ ((1000005 # 1000000) + errorEps < 1000012 # 1000000)%Q.
Proof.
  split_and!; try (vm_compute; reflexivity); intros H; vm_compute in H; discriminate.
Qed.

(** * Drill size *)

(** C7: from an index among 0, 1, 2 the size key moves the index to the
    next one cyclically, sets the drill size that goes with it (2, 4 or
    6 mm, so 2 -> 4 -> 6 -> 2), and gives the tip cursor and the burr mesh
    the same radius. *)
Theorem drill_size_cycle (p : Plugin) :
  0 ≤ m_drillSizeIdx p ≤ 2 →
  let p' := keyboardUpdate false GLFW_KEY_C p in
  tipRadius p' = burrRadius p' ∧
  m_drillSizeIdx p' = (m_drillSizeIdx p + 1) mod 3 ∧
  0 ≤ m_drillSizeIdx p' ≤ 2 ∧
  m_currDrillSize p' = drillSizeOf (m_drillSizeIdx p') ∧
  m_currDrillSize p' =
    match drillSizeOf (m_drillSizeIdx p) with 2 => 4 | 4 => 6 | _ => 2 end ∧
  m_drillSizeIdx (changeDrillSize (changeDrillSize p')) = m_drillSizeIdx p ∧
  m_currDrillSize (changeDrillSize (changeDrillSize p'))
    = drillSizeOf (m_drillSizeIdx p).
Proof.
  intros Hidx. simpl. unfold changeDrillSize.
  assert (m_drillSizeIdx p = 0 ∨ m_drillSizeIdx p = 1 ∨ m_drillSizeIdx p = 2)
    as [E|[E|E]] by lia; rewrite E; simpl; by split_and!.
Qed.

Lemma drill_size_cycle_witness :
  tipRadius (keyboardUpdate false GLFW_KEY_C boneCube)
  = burrRadius (keyboardUpdate false GLFW_KEY_C boneCube) ∧
  m_currDrillSize (keyboardUpdate false GLFW_KEY_C boneCube) = 4.
Proof.
  destruct (drill_size_cycle boneCube) as (Hr & _ & _ & _ & Hs & _).
  - simpl. lia.
  - split; [exact Hr | exact Hs].
Defined.

(** * Voxel size *)

Lemma cMin_Qmin (a b : Q) : cMin a b = Qmin a b.
Proof.
  unfold cMin, Qle_bool, Qmin, GenericMinMax.gmin, Qcompare, Z.leb.
  by destruct (_ ?= _).
Qed.

Lemma divide_nonzero (a b : Q) : ¬ (b == 0)%Q → divide a b = Some (a / b)%Q.
Proof.
  intros Hb. unfold divide. destruct (Qeq_bool b 0) eqn:E; [|done].
  by apply Qeq_bool_iff in E.
Qed.

(** C9, as the code has it: with a texture-coordinate span of zero the
    voxel size is the whole extent span; otherwise it is
    min(extentSpan, extentSpan / (textureCoordSpan * textureResolution)),
    and the divisor is not zero provided the texture resolution along that
    axis is not zero. *)
Theorem voxel_size_axis (v : cVoxelObject) (texSize : Index) (i : Z) :
  iget texSize i ≠ 0 →
  let extentSpan := Qabs (vget (m_maxCorner v) i - vget (m_minCorner v) i) in
  let texSpan := (vget (m_maxTextureCoord v) i - vget (m_minTextureCoord v) i)%Q in
  ((texSpan == 0)%Q → voxelSizeAxis v texSize i = Some extentSpan) ∧
  (¬ (texSpan == 0)%Q →
     ¬ (texelDivisor v texSize i == 0)%Q ∧
     texelDivisor v texSize i = (texSpan * inject_Z (iget texSize i))%Q ∧
     voxelSizeAxis v texSize i
       = Some (Qmin extentSpan (extentSpan / (texSpan * inject_Z (iget texSize i))))).
Proof.
  intros Hres extentSpan texSpan. unfold voxelSizeAxis.
  assert ((texSpan == 0)%Q ↔
          Qeq_bool (vget (m_maxTextureCoord v) i) (vget (m_minTextureCoord v) i) = true)
    as Hspan.
  { rewrite Qeq_bool_iff. unfold texSpan. split; intros H; lra. }
  split.
  - intros H0. apply Hspan in H0. by rewrite H0.
  - intros Hne.
    destruct (Qeq_bool (vget (m_maxTextureCoord v) i) _) eqn:E;
      [by destruct Hne; apply Hspan|].
    assert (¬ (texelDivisor v texSize i == 0)%Q) as Hdiv.
    { unfold texelDivisor. fold texSpan. intros H.
      apply Qmult_integral in H as [H|H]; [done|].
      apply Hres. unfold Qeq in H. simpl in H. lia. }
    split; [done|]. split; [done|].
    fold extentSpan. rewrite (divide_nonzero _ _ Hdiv). simpl.
    by rewrite cMin_Qmin.
Qed.

Lemma voxel_size_axis_witness :
  voxelSizeAxis unitVolume (4, 4, 4) 0 = Some (Qmin 1 (1 / ((1 - 0) * 4)))%Q.
Proof.
  destruct (voxel_size_axis unitVolume (4, 4, 4) 0) as [_ H].
  - simpl. lia.
  - destruct H as (_ & _ & H); [discriminate|]. exact H.
Defined.

(** C9 as stated fails: with a texture-coordinate span of 1 and a texture
    that is 0 voxels wide, the divisor is 1 * 0 and the division is
    evaluated. *)
Lemma voxel_size_zero_divisor :
  ¬ (vget (m_maxTextureCoord unitVolume) 0 - vget (m_minTextureCoord unitVolume) 0 == 0)%Q ∧
  (texelDivisor unitVolume (0, 4, 4)%Z 0 == 0)%Q ∧
  voxelSizeAxis unitVolume (0, 4, 4) 0 = None.
Proof. split_and!; [discriminate | reflexivity | reflexivity]. Qed.

(** * The flood fill as a whole *)

Section FloodFill.

Variable p : Plugin.
Variable proxy : cVector3d.

Local Abbreviation rec := (recursiveCheckFromVoxel p proxy).
Local Abbreviation visit := (checkVoxel p proxy).

Lemma visit_collision (idx : Index) (s : SearchState) :
  (visit idx s).1 = inContactWithTool p proxy idx.
Proof. reflexivity. Qed.

(** A call expands its voxel when it is in contact, or when it is the
    first one visited. *)
Lemma expands_iff (idx : Index) (s : SearchState) :
  idx ∉ alreadyChecked s →
  negb (visit idx s).1 && negb (size (alreadyChecked (visit idx s).2) =? 1)%nat = false ↔
  inContactWithTool p proxy idx = true ∨ alreadyChecked s = ∅.
Proof.
  intros Hin. rewrite visit_collision, checked_visit.
  rewrite size_union by set_solver. rewrite size_singleton.
  destruct (inContactWithTool p proxy idx); simpl; [tauto|].
  destruct (size (alreadyChecked s)) as [|n] eqn:E; simpl.
  - apply size_empty_iff in E. split; [right; by apply leibniz_equiv | done].
  - split; [done|]. intros [?|He]; [done|]. rewrite He, size_empty in E. done.
Qed.

(** Every visited voxel can be reached from the seed. *)
Lemma forEach_reachable (seed : Index) (f : Index → SearchState → option SearchState) :
  (∀ idx s s', reachable p proxy seed idx → alreadyChecked s ≠ ∅ →
               (∀ v, v ∈ alreadyChecked s → reachable p proxy seed v) →
               f idx s = Some s' →
               alreadyChecked s' ≠ ∅ ∧ ∀ v, v ∈ alreadyChecked s' → reachable p proxy seed v) →
  ∀ l s s', Forall (reachable p proxy seed) l → alreadyChecked s ≠ ∅ →
            (∀ v, v ∈ alreadyChecked s → reachable p proxy seed v) →
            forEach f l s = Some s' →
            alreadyChecked s' ≠ ∅ ∧ ∀ v, v ∈ alreadyChecked s' → reachable p proxy seed v.
Proof.
  intros Hf l. induction l as [|a l IH]; intros s s' Hl Hne Hs H; simpl in H.
  - by injection H as <-.
  - inversion_clear Hl as [|? ? Ha Hl']. destruct (f a s) as [s1|] eqn:E; [|discriminate].
    destruct (Hf a s s1 Ha Hne Hs E) as [Hne1 Hs1]. eauto.
Qed.

Lemma recursiveCheck_reachable (seed : Index) (fuel : nat) :
  ∀ idx s s', reachable p proxy seed idx →
              (alreadyChecked s = ∅ → idx = seed) →
              (∀ v, v ∈ alreadyChecked s → reachable p proxy seed v) →
              rec fuel idx s = Some s' →
              alreadyChecked s' ≠ ∅ ∧ ∀ v, v ∈ alreadyChecked s' → reachable p proxy seed v.
Proof.
  induction fuel as [|fuel IH]; intros idx s s' Hidx Hfirst Hs H; [discriminate|].
  destruct (decide (idx ∈ alreadyChecked s)) as [Hin|Hin].
  - rewrite recursiveCheck_visited in H by done. injection H as <-.
    split; [set_solver | done].
  - rewrite recursiveCheck_fresh in H by done.
    assert (alreadyChecked (visit idx s).2 ≠ ∅) as Hne1
      by (rewrite checked_visit; set_solver).
    assert (∀ v, v ∈ alreadyChecked (visit idx s).2 → reachable p proxy seed v) as Hs1.
    { intros v. rewrite checked_visit, elem_of_union, elem_of_singleton.
      intros [->|?]; auto. }
    destruct (negb _ && _) eqn:E.
    + by injection H as <-.
    + apply expands_iff in E; [|done].
      refine (forEach_reachable seed (rec fuel) _ _ _ _ _ Hne1 Hs1 H).
      * intros i t t' Hi Hne Ht. apply IH; [done | done | done].
      * apply Forall_forall. intros nb Hnb.
        apply (reach_step p proxy seed idx nb Hidx); [|done].
        destruct E as [?|He]; [by right | left; auto].
Qed.

Lemma closedFrom_refl (s : SearchState) : closedFrom p proxy s s.
Proof. intros v nb Hv Hn. done. Qed.

Lemma closedFrom_trans (s s1 s' : SearchState) :
  alreadyChecked s1 ⊆ alreadyChecked s' →
  closedFrom p proxy s s1 → closedFrom p proxy s1 s' → closedFrom p proxy s s'.
Proof.
  intros Hsub H1 H2 v nb Hv Hn Hc Hnb.
  destruct (decide (v ∈ alreadyChecked s1)) as [Hv1|Hv1].
  - apply Hsub. by apply (H1 v nb).
  - by apply (H2 v nb).
Qed.

Lemma forEach_closed (f : Index → SearchState → option SearchState) :
  (∀ idx s s', alreadyChecked s ≠ ∅ → f idx s = Some s' →
               idx ∈ alreadyChecked s' ∧ alreadyChecked s ⊆ alreadyChecked s' ∧
               closedFrom p proxy s s') →
  ∀ l s s', alreadyChecked s ≠ ∅ → forEach f l s = Some s' →
            (∀ nb, nb ∈ l → nb ∈ alreadyChecked s') ∧
            alreadyChecked s ⊆ alreadyChecked s' ∧ closedFrom p proxy s s'.
Proof.
  intros Hf l. induction l as [|a l IH]; intros s s' Hne H; simpl in H.
  - injection H as <-. split_and!; [by inversion 1 | done | apply closedFrom_refl].
  - destruct (f a s) as [s1|] eqn:E; [|discriminate].
    destruct (Hf a s s1 Hne E) as (Ha & Hsub & Hcl).
    destruct (IH s1 s') as (Hl & Hsub' & Hcl'); [set_solver | done |].
    split_and!.
    + intros nb [->|Hnb]%elem_of_cons; auto.
    + set_solver.
    + by apply (closedFrom_trans s s1 s').
Qed.

Lemma recursiveCheck_closed (fuel : nat) :
  ∀ idx s s', rec fuel idx s = Some s' →
              idx ∈ alreadyChecked s' ∧ alreadyChecked s ⊆ alreadyChecked s' ∧
              closedFrom p proxy s s' ∧
              (alreadyChecked s = ∅ → ∀ nb, nb ∈ neighbours p idx → nb ∈ alreadyChecked s').
Proof.
  induction fuel as [|fuel IH]; intros idx s s' H; [discriminate|].
  destruct (decide (idx ∈ alreadyChecked s)) as [Hin|Hin].
  - rewrite recursiveCheck_visited in H by done. injection H as <-.
    split_and!; [done | done | apply closedFrom_refl | set_solver].
  - rewrite recursiveCheck_fresh in H by done.
    destruct (negb _ && _) eqn:E.
    + assert (s' = (visit idx s).2) as -> by congruence.
      assert (¬ (inContactWithTool p proxy idx = true ∨ alreadyChecked s = ∅)) as Hno.
      { intros Hex. apply expands_iff in Hex; [congruence | done]. }
      rewrite checked_visit. split_and!; [set_solver | set_solver | | tauto].
      intros v nb Hv Hn Hc Hnb. assert (v = idx) as -> by set_solver. tauto.
    + destruct (forEach_closed (rec fuel)) with (l := neighbours p idx)
        (s := (visit idx s).2) (s' := s') as (Hnbs & Hsub & Hcl); [| | done |].
      { intros i t t' _ Ht. destruct (IH i t t' Ht) as (? & ? & ? & _). done. }
      { rewrite checked_visit. set_solver. }
      rewrite checked_visit in Hsub.
      split_and!; [set_solver | set_solver | | auto].
      intros v nb Hv Hn Hc Hnb. destruct (decide (v = idx)) as [->|Hne]; [auto|].
      apply (Hcl v nb); [done | | done | done].
      rewrite checked_visit. set_solver.
Qed.

(** The log of tested voxels, filtered by the contact test, is what the
    recursion pushed. *)
Lemma recursiveCheck_list_filter (fuel : nat) (idx : Index) (s s' : SearchState) :
  rec fuel idx s = Some s' →
  ∃ ev, evaluated s' = evaluated s ++ ev ∧
        listOfCollidingVoxels s' =
          listOfCollidingVoxels s ++ List.filter (contactVoxel p proxy) ev.
Proof.
  apply (recursiveCheck_invariant p proxy
           (λ t, ∃ ev, evaluated t = evaluated s ++ ev ∧
                       listOfCollidingVoxels t =
                         listOfCollidingVoxels s ++ List.filter (contactVoxel p proxy) ev)
           (λ _, True)); [done | | done |].
  - intros i t _ (ev & E1 & E2) _. exists (ev ++ [i]).
    rewrite list_visit, E2. simpl. rewrite E1, List.filter_app, !app_assoc. simpl.
    split; [done|]. by destruct (contactVoxel p proxy i).
  - exists []. by rewrite !app_nil_r.
Qed.

End FloodFill.

(** What a finished search has visited, and what it has listed. *)
Lemma findIndex_visited (p : Plugin) (proxy : cVector3d) (seed : Index)
      (container : list Index) (s : SearchState) :
  findIndexOfAllCollidingVoxels p proxy seed container = Some s →
  ∀ v, v ∈ alreadyChecked s ↔ reachable p proxy seed v.
Proof.
  unfold findIndexOfAllCollidingVoxels. intros Hs v. split.
  - intros Hv. eapply recursiveCheck_reachable; [constructor | done | | exact Hs | exact Hv].
    simpl. set_solver.
  - destruct (recursiveCheck_closed p proxy _ _ _ _ Hs) as (Hseed & _ & Hcl & Hfirst).
    induction 1 as [|v nb Hv IH Hexp Hnb]; [done|].
    destruct Hexp as [->|Hc]; [by apply Hfirst|].
    apply (Hcl v nb); [done | simpl; set_solver | done | done].
Qed.

Lemma findIndex_listed (p : Plugin) (proxy : cVector3d) (seed : Index)
      (container : list Index) (s : SearchState) :
  findIndexOfAllCollidingVoxels p proxy seed container = Some s →
  listOfCollidingVoxels s =
    container ++ seed :: List.filter (contactVoxel p proxy) (evaluated s) ∧
  NoDup (List.filter (contactVoxel p proxy) (evaluated s)) ∧
  ∀ v, v ∈ List.filter (contactVoxel p proxy) (evaluated s) ↔
       reachable p proxy seed v ∧
       0 < numCornersInTool p proxy v < 8 ∧
       getVoxelColor (image p) v ≠ m_zeroColor.
Proof.
  intros Hs. pose proof (findIndex_visited p proxy seed container s Hs) as Hreach.
  unfold findIndexOfAllCollidingVoxels in Hs.
  destruct (recursiveCheck_list_filter p proxy _ _ _ _ Hs) as (ev & Eev & El).
  simpl in Eev, El. subst ev.
  assert (logExact s) as [Hnd Hlog].
  { eapply recursiveCheck_logExact; [|exact Hs]. split; simpl; [constructor|].
    intros i. set_solver. }
  split; [by rewrite El, <- app_assoc|]. split.
  - apply NoDup_ListNoDup, List.NoDup_filter, NoDup_ListNoDup, Hnd.
  - intros v. rewrite list_elem_of_In, List.filter_In, <- list_elem_of_In.
    rewrite Hlog, Hreach. rewrite <- (contactVoxel_spec p proxy v). tauto.
Qed.

(** X1: the search returns, and it has visited exactly the voxels that can
    be reached from the seed through neighbours inside the texture, going on
    from a voxel only when it is the seed or when its corner count is
    strictly between 0 and 8. *)
Theorem search_visits_reachable (p : Plugin) (proxy : cVector3d) (seed : Index)
        (container : list Index) :
  ∃ s, findIndexOfAllCollidingVoxels p proxy seed container = Some s ∧
       ∀ v, v ∈ alreadyChecked s ↔ reachable p proxy seed v.
Proof.
  destruct (findIndex_terminates p proxy seed container) as [s Hs].
  exists s. split; [exact Hs|]. exact (findIndex_visited p proxy seed container s Hs).
Qed.

(** X2: the search returns, and after the seed entry the returned list holds
    exactly the reachable voxels that are in contact and not empty, each
    once, in the order in which the search tested them. *)
Theorem contact_list_exact (p : Plugin) (proxy : cVector3d) (seed : Index)
        (container : list Index) :
  ∃ s, findIndexOfAllCollidingVoxels p proxy seed container = Some s ∧
       listOfCollidingVoxels s =
         container ++ seed :: List.filter (contactVoxel p proxy) (evaluated s) ∧
       NoDup (List.filter (contactVoxel p proxy) (evaluated s)) ∧
       ∀ v, v ∈ List.filter (contactVoxel p proxy) (evaluated s) ↔
            reachable p proxy seed v ∧
            0 < numCornersInTool p proxy v < 8 ∧
            getVoxelColor (image p) v ≠ m_zeroColor.
Proof.
  destruct (findIndex_terminates p proxy seed container) as [s Hs].
  exists s. split; [exact Hs|]. exact (findIndex_listed p proxy seed container s Hs).
Qed.

(** * One tick, voxel by voxel *)

Lemma elem_of_rev {A : Type} (x : A) (l : list A) : x ∈ rev l ↔ x ∈ l.
Proof. rewrite !list_elem_of_In. symmetry. apply in_rev. Qed.

(** The search and the drain do not read the target cursor fields set by
    [checkShaftCollision]. *)
Lemma search_ignores_target (errs : list Q) (p : Plugin) (proxy : cVector3d)
      (seed : Index) (container : list Index) :
  findIndexOfAllCollidingVoxels (checkShaftCollision errs p) proxy seed container
  = findIndexOfAllCollidingVoxels p proxy seed container.
Proof. unfold checkShaftCollision. destruct (shaftLoop _ _ _). reflexivity. Qed.

Lemma carveAll_set_target (e : Q) (i : Z) (l : list Index) (p : Plugin) (f : bool) :
  carveAll l (set_target e i p, f)
  = (set_target e i (carveAll l (p, f)).1, (carveAll l (p, f)).2).
Proof.
  induction l as [|a l IH]; [done|].
  rewrite !carveAll_cons, IH. by destruct (carveAll l (p, f)).
Qed.

Lemma carveAll_dims (l : list Index) (p : Plugin) (f : bool) :
  getWidth (image (carveAll l (p, f)).1) = getWidth (image p) ∧
  getHeight (image (carveAll l (p, f)).1) = getHeight (image p) ∧
  getImageCount (image (carveAll l (p, f)).1) = getImageCount (image p).
Proof.
  induction l as [|a l IH]; [done|].
  rewrite carveAll_cons. by destruct (carveAll l (p, f)).
Qed.

(** Draining a list without repetition publishes its voxels last to first,
    each with the colour it had before the drain. *)
Lemma carveAll_published_NoDup (l : list Index) (p : Plugin) (f : bool) :
  NoDup l →
  published (carveAll l (p, f)).1
  = published p ++ map (λ i, mkEvent i (getVoxelColor (image p) i)) (rev l).
Proof.
  induction 1 as [|a l Ha Hl IH]; [by rewrite app_nil_r|].
  pose proof (carveAll_colors l p f a) as Hc.
  rewrite carveAll_cons. destruct (carveAll l (p, f)) as [q g]. simpl in *.
  rewrite IH, Hc, bool_decide_false by done.
  by rewrite map_app, app_assoc.
Qed.

Lemma carveAll_published_seed (seed : Index) (added : list Index) (p : Plugin) (f : bool) :
  NoDup added →
  published (carveAll (seed :: added) (p, f)).1
  = published p ++ drainEvents (image p) seed added.
Proof.
  intros Hnd. pose proof (carveAll_colors added p f seed) as Hc.
  pose proof (carveAll_published_NoDup added p f Hnd) as Hp.
  rewrite carveAll_cons. destruct (carveAll added (p, f)) as [q g]. simpl in *.
  rewrite Hp, Hc. unfold drainEvents. by rewrite app_assoc.
Qed.

(** The tick in terms of the plugin before it. *)
Lemma physicsUpdate_cases (inp : TickInput) (p : Plugin) :
  ∃ p', physicsUpdate inp p = Some p' ∧
    if carvingTick inp p then
      ∃ s, findIndexOfAllCollidingVoxels p (tipProxy inp) (firstContact inp) [] = Some s ∧
           image p' = image (carveAll (listOfCollidingVoxels s) (p, false)).1 ∧
           published p' = published (carveAll (listOfCollidingVoxels s) (p, false)).1 ∧
           m_volumeUpdate p'
             = m_volumeUpdate (carveAll (listOfCollidingVoxels s) (p, false)).1 ∧
           showPanel p' = (carveAll (listOfCollidingVoxels s) (p, false)).2 || showPanel p ∧
           m_flagMarkVolumeForUpdate p' = true
    else image p' = image p ∧ published p' = published p ∧
         m_volumeUpdate p' = m_volumeUpdate p ∧ showPanel p' = false ∧
         m_flagMarkVolumeForUpdate p' = m_flagMarkVolumeForUpdate p.
Proof.
  pose proof (physicsUpdate_unfold inp p) as H. simpl in H.
  destruct (carvingTick inp p).
  - destruct H as (s & Hs & ->). rewrite search_ignores_target in Hs.
    eexists. split; [done|]. exists s. split; [done|].
    unfold checkShaftCollision. destruct (shaftLoop _ _ _) as [e i].
    rewrite carveAll_set_target. simpl.
    pose proof (carveAll_effect (listOfCollidingVoxels s) p false) as (_ & _ & _ & _ & Hp & _).
    destruct (carveAll (listOfCollidingVoxels s) (p, false)) as [r []]; simpl in *;
      split_and!; try done; by rewrite Hp.
  - rewrite H. eexists. split; [done|].
    unfold checkShaftCollision. by destruct (shaftLoop _ _ _).
Qed.

Lemma reachable_inRange (p : Plugin) (proxy : cVector3d) (seed v : Index) :
  reachable p proxy seed v → v = seed ∨ inRange p v = true.
Proof. destruct 1; [by left | right]. by eapply neighbours_inRange. Qed.

(** X3: apart from the seed reported by the solver, a tick only removes
    voxels whose index lies within the texture dimensions. *)
Theorem tick_removes_inside_texture (inp : TickInput) (p : Plugin) :
  ∃ p', physicsUpdate inp p = Some p' ∧
        Forall (λ e, ev_index e = firstContact inp ∨ inRange p (ev_index e) = true)
               (newEvents p p').
Proof.
  destruct (physicsUpdate_cases inp p) as (p' & Hp & Hcase).
  exists p'. split; [done|]. unfold newEvents.
  destruct (carvingTick inp p).
  - destruct Hcase as (s & Hs & _ & Hpub & _).
    destruct (carveAll_effect (listOfCollidingVoxels s) p false)
      as (evs & [Hev _ _] & Hidx & _).
    rewrite Hpub, Hev, drop_app_length.
    destruct (findIndex_listed p (tipProxy inp) (firstContact inp) [] s Hs)
      as (Hl & _ & Hmem).
    simpl in Hl.
    apply Forall_forall. intros e He.
    assert (ev_index e ∈ rev (listOfCollidingVoxels s)) as Hin.
    { rewrite <- Hidx. by apply list_elem_of_fmap_2. }
    rewrite elem_of_rev, Hl in Hin. apply elem_of_cons in Hin as [?|Hin]; [by left|].
    apply Hmem in Hin as [Hr _]. by apply (reachable_inRange p (tipProxy inp)).
  - destruct Hcase as (_ & -> & _). by rewrite drop_all.
Qed.

(** X4: after any run of ticks the texture has the dimensions it had, every
    voxel published in the run is EMPTY, and every other voxel has the
    colour it had before the run. *)
Theorem removed_voxels_are_empty (ticks : list TickInput) (p : Plugin) :
  ∃ p', runTicks ticks p = Some p' ∧
    getWidth (image p') = getWidth (image p) ∧
    getHeight (image p') = getHeight (image p) ∧
    getImageCount (image p') = getImageCount (image p) ∧
    ∀ i, getVoxelColor (image p') i =
           if bool_decide (i ∈ map ev_index (newEvents p p'))
           then m_zeroColor else getVoxelColor (image p) i.
Proof.
  assert (Htick : ∀ inp q, ∃ q' evs, physicsUpdate inp q = Some q' ∧
            published q' = published q ++ evs ∧
            getWidth (image q') = getWidth (image q) ∧
            getHeight (image q') = getHeight (image q) ∧
            getImageCount (image q') = getImageCount (image q) ∧
            ∀ i, getVoxelColor (image q') i =
                   if bool_decide (i ∈ map ev_index evs)
                   then m_zeroColor else getVoxelColor (image q) i).
  { intros inp q. destruct (physicsUpdate_cases inp q) as (q' & Hq & Hcase).
    exists q'. destruct (carvingTick inp q).
    - destruct Hcase as (s & _ & Himg & Hpub & _).
      destruct (carveAll_effect (listOfCollidingVoxels s) q false)
        as (evs & [Hev _ _] & Hidx & _).
      destruct (carveAll_dims (listOfCollidingVoxels s) q false) as (D1 & D2 & D3).
      exists evs. rewrite Himg, Hpub. split_and!; try done.
      intros i. rewrite carveAll_colors, Hidx.
      by rewrite (bool_decide_ext _ _ (elem_of_rev i (listOfCollidingVoxels s))).
    - destruct Hcase as (-> & -> & _). exists []. by rewrite app_nil_r. }
  assert (Hrun : ∀ q, ∃ q' evs, runTicks ticks q = Some q' ∧
            published q' = published q ++ evs ∧
            getWidth (image q') = getWidth (image q) ∧
            getHeight (image q') = getHeight (image q) ∧
            getImageCount (image q') = getImageCount (image q) ∧
            ∀ i, getVoxelColor (image q') i =
                   if bool_decide (i ∈ map ev_index evs)
                   then m_zeroColor else getVoxelColor (image q) i).
  { induction ticks as [|t ticks IH]; intros q; simpl.
    - exists q, []. by rewrite app_nil_r.
    - destruct (Htick t q) as (q1 & e1 & -> & P1 & W1 & H1 & D1 & C1). simpl.
      destruct (IH q1) as (q2 & e2 & -> & P2 & W2 & H2 & D2 & C2).
      exists q2, (e1 ++ e2). rewrite P2, P1, app_assoc. split_and!; try congruence.
      intros i. rewrite C2, C1, map_app.
      repeat case_bool_decide; try done; exfalso;
        match goal with H : _ ∉ _ ++ _ |- _ => apply H, elem_of_app; tauto
                   | H : _ ∈ _ ++ _ |- _ => apply elem_of_app in H; tauto end. }
  destruct (Hrun p) as (p' & evs & Hp & Hpub & W & H & D & C).
  exists p'. unfold newEvents. rewrite Hpub, drop_app_length. by split_and!.
Qed.

Lemma criticalColor_zero : criticalColor m_zeroColor = false.
Proof. reflexivity. Qed.

Lemma color_array_byte (c : cColorb) :
  byteColor c →
  color_array c = (saturated (cR c), saturated (cG c), saturated (cB c), saturated (cA c)).
Proof.
  assert (H : ∀ b, 0 ≤ b ≤ 255 → Z.quot b 255 = saturated b).
  { intros b Hb. unfold saturated. destruct (Z.eqb_spec b 255) as [->|Hne]; [done|].
    apply Z.quot_small. lia. }
  intros (Hr & Hg & Hb & Ha). unfold color_array. by rewrite !H.
Qed.

(** X5: what a carving tick publishes.  The list is the seed followed by
    the contact voxels found; [voxelsRemoved] is called for these contact
    voxels, last found first, and then for the seed, so there is one call
    more than contact voxels.  The colour argument of a call is the colour
    the loop read (the colour before the tick, or EMPTY for a seed that was
    among the contact voxels) with each component divided by 255 and cut to
    an integer: for byte colours it is 1 where the byte is 255 and 0
    elsewhere.  The critical-region flag is raised exactly when a listed
    voxel had a colour in the image that is neither bone nor EMPTY. *)
Theorem carving_tick_telemetry (inp : TickInput) (p : Plugin) :
  carvingTick inp p = true →
  ∃ p' s,
    physicsUpdate inp p = Some p' ∧
    findIndexOfAllCollidingVoxels p (tipProxy inp) (firstContact inp) [] = Some s ∧
    let added := List.filter (contactVoxel p (tipProxy inp)) (evaluated s) in
    listOfCollidingVoxels s = firstContact inp :: added ∧
    NoDup added ∧
    map voxelsRemoved (newEvents p p') =
      map (λ i, (i, color_array (getVoxelColor (image p) i))) (rev added)
      ++ [(firstContact inp,
           color_array (if bool_decide (firstContact inp ∈ added) then m_zeroColor
                        else getVoxelColor (image p) (firstContact inp)))] ∧
    length (newEvents p p') = S (length added) ∧
    Forall (λ e, byteColor (ev_color e) →
                 (voxelsRemoved e).2 =
                   (saturated (cR (ev_color e)), saturated (cG (ev_color e)),
                    saturated (cB (ev_color e)), saturated (cA (ev_color e))))
           (newEvents p p') ∧
    showPanel p' =
      existsb (λ v, criticalColor (getVoxelColor (image p) v)) (listOfCollidingVoxels s)
      || showPanel p.
Proof.
  intros Hcarve.
  destruct (physicsUpdate_cases inp p) as (p' & Hp & Hcase). rewrite Hcarve in Hcase.
  destruct Hcase as (s & Hs & _ & Hpub & _ & Hshow & _).
  destruct (findIndex_listed p (tipProxy inp) (firstContact inp) [] s Hs)
    as (Hl & Hnd & _).
  simpl in Hl.
  exists p', s. split; [done|]. split; [done|]. simpl.
  set (added := List.filter (contactVoxel p (tipProxy inp)) (evaluated s)) in *.
  assert (newEvents p p' = drainEvents (image p) (firstContact inp) added) as Hev.
  { unfold newEvents. rewrite Hpub, Hl, carveAll_published_seed by done.
    by rewrite drop_app_length. }
  split; [done|]. split; [done|]. split.
  { rewrite Hev. unfold drainEvents. by rewrite map_app, map_map. }
  split.
  { rewrite Hev. unfold drainEvents.
    rewrite length_app, length_map, length_rev. simpl. lia. }
  split.
  { apply Forall_forall. intros e _ Hb. by apply color_array_byte. }
  rewrite Hshow. f_equal.
  destruct (carveAll_effect (listOfCollidingVoxels s) p false)
    as (evs & [Hpe _ _] & _ & Hflag & _).
  rewrite Hflag, orb_false_r.
  assert (evs = drainEvents (image p) (firstContact inp) added) as ->.
  { rewrite Hl, carveAll_published_seed in Hpe by done.
    by apply app_inv_head in Hpe. }
  rewrite Hl. unfold drainEvents. rewrite map_app, existsb_app, map_map. simpl.
  rewrite orb_false_r.
  assert (existsb criticalColor
            (map (λ i, getVoxelColor (image p) i) (rev added))
          = existsb (λ v, criticalColor (getVoxelColor (image p) v)) added) as ->.
  { apply eq_true_iff_eq. rewrite !existsb_exists. split.
    - intros (c & (v & <- & Hv%in_rev)%in_map_iff & Hc). eauto.
    - intros (v & Hv & Hc). exists (getVoxelColor (image p) v). split; [|done].
      apply in_map_iff. exists v. split; [done|]. by apply in_rev in Hv. }
  case_bool_decide as Hin; [|by rewrite orb_comm].
  rewrite criticalColor_zero, orb_false_r.
  destruct (criticalColor (getVoxelColor (image p) (firstContact inp))) eqn:Hc; [|done].
  simpl. apply existsb_exists. exists (firstContact inp).
  split; [by apply list_elem_of_In | done].
Qed.

Lemma carving_tick_telemetry_witness :
  ∃ p', physicsUpdate tickCorner1 nerveCube = Some p' ∧
        length (newEvents nerveCube p') = 9%nat ∧ showPanel p' = true.
Proof.
  destruct (carving_tick_telemetry tickCorner1 nerveCube) as (p' & s & Hp & Hs & H);
    [reflexivity|].
  simpl in H. destruct H as (Hl & _ & _ & Hlen & _ & Hshow).
  exists p'. split; [exact Hp|].
  assert (s = default (mkSearch ∅ [] [])
                (findIndexOfAllCollidingVoxels nerveCube (tipProxy tickCorner1)
                   (firstContact tickCorner1) [])) as -> by (by rewrite Hs).
  split.
  - rewrite Hlen. vm_compute. reflexivity.
  - rewrite Hshow. vm_compute. reflexivity.
Defined.

(** * Refresh requests *)

Lemma carvingTick_plugin (inp : TickInput) (p q : Plugin) :
  carvingTick inp p = carvingTick inp q.
Proof.
  unfold carvingTick.
  destruct (checkShaftCollision_fields (errors inp) p) as [_ ->].
  by destruct (checkShaftCollision_fields (errors inp) q) as [_ ->].
Qed.

(** X6: a refresh is requested by carving ticks only.  After
    [graphicsUpdate], ticks that do not carve leave voxels, telemetry and
    dirty region as they are, and the next [graphicsUpdate] does nothing:
    it hands no region to the renderer. *)
Theorem refresh_only_after_carving (ticks : list TickInput) (p : Plugin) :
  Forall (λ t, carvingTick t p = false) ticks →
  ∃ p2, runTicks ticks (graphicsUpdate p).1 = Some p2 ∧
        graphicsUpdate p2 = (p2, None) ∧
        image p2 = image (graphicsUpdate p).1 ∧
        published p2 = published p ∧
        m_volumeUpdate p2 = m_volumeUpdate (graphicsUpdate p).1.
Proof.
  intros Hticks.
  assert (Hrun : ∀ q, m_flagMarkVolumeForUpdate q = false →
            ∃ q', runTicks ticks q = Some q' ∧ m_flagMarkVolumeForUpdate q' = false ∧
                  image q' = image q ∧ published q' = published q ∧
                  m_volumeUpdate q' = m_volumeUpdate q).
  { induction Hticks as [|t ticks Ht _ IH]; intros q Hq; simpl.
    - by exists q.
    - destruct (physicsUpdate_cases t q) as (q1 & -> & Hcase). simpl.
      rewrite (carvingTick_plugin t q p), Ht in Hcase.
      destruct Hcase as (I1 & P1 & V1 & _ & F1).
      destruct (IH q1) as (q2 & -> & F2 & I2 & P2 & V2); [congruence|].
      exists q2. split_and!; congruence. }
  destruct (Hrun (graphicsUpdate p).1) as (p2 & Hp2 & Hf & Hi & Hpub & Hv).
  { unfold graphicsUpdate. by destruct (m_flagMarkVolumeForUpdate p) eqn:E. }
  exists p2. split_and!; try done.
  - unfold graphicsUpdate. by rewrite Hf.
  - by rewrite Hpub, graphicsUpdate_published.
Qed.

Lemma refresh_only_after_carving_witness :
  ∃ p2, runTicks [mkTick [0%Q] false (1, 1, 1) cubeCentre]
                 (graphicsUpdate (afterTick tickCorner1 boneCube)).1 = Some p2 ∧
        graphicsUpdate p2 = (p2, None).
Proof.
  destruct (refresh_only_after_carving [mkTick [0%Q] false (1, 1, 1) cubeCentre]
              (afterTick tickCorner1 boneCube)) as (p2 & H1 & H2 & _).
  - repeat constructor.
  - exists p2. split; [exact H1 | exact H2].
Defined.

(** * When the tip is the target *)

Lemma shaftLoop_index (l : list Q) :
  ∀ i m k, (shaftLoop i l (m, k)).2 = k ∨ i ≤ (shaftLoop i l (m, k)).2.
Proof.
  induction l as [|e l IH]; intros i m k; simpl; [by left|].
  destruct (Qlt_bool _ _).
  - right. destruct (IH (i + 1) e i) as [->|?]; lia.
  - destruct (IH (i + 1) m k) as [?|?]; [by left | right; lia].
Qed.

Lemma shaftLoop_keeps (l : list Q) :
  ∀ i m k, (0 <= m)%Q → Forall (λ e, 0 <= e)%Q l → k < i →
           (shaftLoop i l (m, k)).2 = k ↔ Forall (λ e, e <= m + errorEps)%Q l.
Proof.
  induction l as [|e l IH]; intros i m k Hm Hpos Hk; cbn [shaftLoop fst]; [done|].
  inversion_clear Hpos as [|? ? He Hl].
  destruct (Qlt_bool _ _) eqn:T.
  - apply shaft_test in T; [|done|done]. split.
    + intros Hidx. destruct (shaftLoop_index l (i + 1) e i) as [E|E]; lia.
    + intros Hall. inversion_clear Hall as [|? ? Hle _]. lra.
  - assert (e <= m + errorEps)%Q as Hle.
    { apply Qnot_lt_le. intros Hlt. apply shaft_test in Hlt; [|done|done]. congruence. }
    rewrite (IH (i + 1) m k) by (done || lia). split.
    + by constructor.
    + by inversion 1.
Qed.

(** X7: with at least one cursor, the tip stays the target exactly when no
    shaft cursor has an error more than epsilon above the tip's error, the
    tip's error counting as 0 unless it exceeds epsilon itself. *)
Theorem tip_stays_target (e0 : Q) (rest : list Q) (p : Plugin) :
  Forall (λ e, 0 <= e)%Q (e0 :: rest) →
  m_targetToolCursorIdx (checkShaftCollision (e0 :: rest) p) = 0 ↔
  Forall (λ e, e <= (if Qlt_bool errorEps e0 then e0 else 0) + errorEps)%Q rest.
Proof.
  intros Hpos. inversion_clear Hpos as [|? ? He0 Hrest].
  destruct (checkShaftCollision_fields (e0 :: rest) p) as [_ ->].
  cbn [shaftLoop fst].
  assert (Qlt_bool (Qabs (0 + errorEps)) (Qabs e0) = Qlt_bool errorEps e0) as ->.
  { apply eq_true_iff_eq. rewrite shaft_test by (done || discriminate).
    rewrite Qlt_bool_true. split; intros H; lra. }
  destruct (Qlt_bool errorEps e0) eqn:T.
  - apply shaftLoop_keeps; [done | done | lia].
  - apply shaftLoop_keeps; [discriminate | done | lia].
Qed.

Lemma tip_stays_target_witness :
  m_targetToolCursorIdx (checkShaftCollision [1; 1; 1]%Q boneCube) = 0.
Proof.
  apply (tip_stays_target 1%Q [1; 1]%Q boneCube).
  - repeat constructor; discriminate.
  - repeat constructor; discriminate.
Defined.

(** X8: while a shaft cursor is the target, a tick removes no voxel,
    publishes nothing, leaves the dirty region and the refresh flag as they
    are and hides the warning, even if the tip is in contact. *)
Theorem shaft_target_blocks_carving (inp : TickInput) (p : Plugin) :
  m_targetToolCursorIdx (checkShaftCollision (errors inp) p) ≠ 0 →
  ∃ p', physicsUpdate inp p = Some p' ∧
        image p' = image p ∧ published p' = published p ∧
        m_volumeUpdate p' = m_volumeUpdate p ∧
        m_flagMarkVolumeForUpdate p' = m_flagMarkVolumeForUpdate p ∧
        showPanel p' = false.
Proof.
  intros Hne. destruct (physicsUpdate_cases inp p) as (p' & Hp & Hcase).
  assert (carvingTick inp p = false) as Hc.
  { unfold carvingTick. apply andb_false_iff. right. by apply Z.eqb_neq. }
  rewrite Hc in Hcase. destruct Hcase as (? & ? & ? & ? & ?).
  exists p'. by split_and!.
Qed.

Lemma shaft_target_blocks_carving_witness :
  ∃ p', physicsUpdate (mkTick [0; 1]%Q true (1, 1, 1) cubeCentre) boneCube = Some p' ∧
        published p' = [].
Proof.
  destruct (shaft_target_blocks_carving (mkTick [0; 1]%Q true (1, 1, 1) cubeCentre) boneCube)
    as (p' & Hp & _ & Hpub & _).
  - vm_compute. discriminate.
  - exists p'. split; [exact Hp | exact Hpub].
Defined.

(** * Removals and the dirty region *)

(** What a tick removes: the entries it publishes are the voxels it sets
    EMPTY and encloses, a tick that carves removes its seed, and no other
    voxel changes colour. *)
Lemma physicsUpdate_removals (inp : TickInput) (q : Plugin) :
  ∃ q' evs, physicsUpdate inp q = Some q' ∧ Carved q q' evs ∧
    (evs = [] ∨ m_flagMarkVolumeForUpdate q' = true) ∧
    (∀ i, getVoxelColor (image q') i =
            if bool_decide (i ∈ map ev_index evs)
            then m_zeroColor else getVoxelColor (image q) i) ∧
    (carvingTick inp q = true → firstContact inp ∈ map ev_index evs).
Proof.
  destruct (physicsUpdate_effect inp q) as (q' & evs & Hq & Hc & Hf & _).
  exists q', evs. split_and!; try done.
  - destruct (physicsUpdate_cases inp q) as (q1 & Hq1 & Hcase).
    assert (q1 = q') as -> by congruence.
    destruct Hc as [Hpub _ _]. destruct (carvingTick inp q).
    + destruct Hcase as (s & _ & Himg & Hpub' & _).
      destruct (carveAll_effect (listOfCollidingVoxels s) q false)
        as (evs' & [Hev _ _] & Hidx & _).
      assert (evs' = evs) as ->.
      { rewrite Hpub', Hev in Hpub. by apply app_inv_head in Hpub. }
      intros i. rewrite Himg, carveAll_colors, Hidx.
      by rewrite (bool_decide_ext _ _ (elem_of_rev i (listOfCollidingVoxels s))).
    + destruct Hcase as (Himg & Hpub' & _). rewrite Hpub' in Hpub.
      assert (evs = []) as ->.
      { apply (app_inv_head (published q)). by rewrite app_nil_r. }
      intros i. by rewrite Himg.
  - intros Hcarve.
    destruct (physicsUpdate_cases inp q) as (q1 & Hq1 & Hcase).
    assert (q1 = q') as -> by congruence. rewrite Hcarve in Hcase.
    destruct Hcase as (s & Hs & _ & Hpub' & _).
    destruct (carveAll_effect (listOfCollidingVoxels s) q false)
      as (evs' & [Hev _ _] & Hidx & _).
    destruct Hc as [Hpub _ _].
    assert (evs' = evs) as ->.
    { rewrite Hpub', Hev in Hpub. by apply app_inv_head in Hpub. }
    rewrite Hidx, elem_of_rev.
    destruct (findIndex_listed q (tipProxy inp) (firstContact inp) [] s Hs) as (-> & _).
    simpl. apply list_elem_of_here.
Qed.

Lemma runTicks_removals (ticks : list TickInput) :
  ∀ q, ∃ q' evs, runTicks ticks q = Some q' ∧ Carved q q' evs ∧
    (evs = [] ∨ m_flagMarkVolumeForUpdate q' = true) ∧
    (∀ i, getVoxelColor (image q') i =
            if bool_decide (i ∈ map ev_index evs)
            then m_zeroColor else getVoxelColor (image q) i) ∧
    Forall (λ inp, carvingTick inp q = true → firstContact inp ∈ map ev_index evs) ticks.
Proof.
  induction ticks as [|t ticks IH]; intros q; simpl.
  - exists q, []. split_and!; try done; [by apply Carved_refl | by left].
  - destruct (physicsUpdate_removals t q) as (q1 & e1 & -> & C1 & F1 & I1 & S1). simpl.
    destruct (IH q1) as (q2 & e2 & Hq2 & C2 & F2 & I2 & S2). rewrite Hq2.
    exists q2, (e1 ++ e2). split_and!; try done.
    + by eapply Carved_trans.
    + destruct F2 as [->|F2]; [|by right]. rewrite app_nil_r.
      destruct F1 as [->|F1]; [by left|]. right.
      destruct (runTicks_effect ticks q1) as (q2' & evs' & Hq2' & _ & _ & Hkeep).
      assert (q2' = q2) as -> by congruence. by apply Hkeep.
    + intros i. rewrite I2, I1, map_app.
      repeat case_bool_decide; try done; exfalso;
        match goal with H : _ ∉ _ ++ _ |- _ => apply H, elem_of_app; tauto
                   | H : _ ∈ _ ++ _ |- _ => apply elem_of_app in H; tauto end.
    + constructor.
      * intros Hc. rewrite map_app. apply elem_of_app. left. by apply S1.
      * eapply Forall_impl; [exact S2|]. intros inp H Hc. cbv beta in H.
        rewrite map_app. apply elem_of_app. right. apply H.
        by rewrite (carvingTick_plugin inp q1 q).
Qed.

(** The region after a run of ticks, against the voxels of the image. *)
Lemma runTicks_region (ticks : list TickInput) (p : Plugin) :
  ∃ p1, runTicks ticks p = Some p1 ∧
    m_volumeUpdate p1 = encloseAll (m_volumeUpdate p) (map ev_index (newEvents p p1)) ∧
    Forall (λ e, getVoxelColor (image p1) (ev_index e) = m_zeroColor ∧
                 boxContains (m_volumeUpdate p1) (indexVec (ev_index e)))
           (newEvents p p1) ∧
    (∀ i, getVoxelColor (image p1) i ≠ getVoxelColor (image p) i →
          getVoxelColor (image p1) i = m_zeroColor ∧
          boxContains (m_volumeUpdate p1) (indexVec i)) ∧
    Forall (λ inp, carvingTick inp p = true →
                   getVoxelColor (image p1) (firstContact inp) = m_zeroColor ∧
                   boxContains (m_volumeUpdate p1) (indexVec (firstContact inp)) ∧
                   m_flagMarkVolumeForUpdate p1 = true)
           ticks ∧
    (newEvents p p1 = [] ∨ m_flagMarkVolumeForUpdate p1 = true).
Proof.
  destruct (runTicks_removals ticks p) as (p1 & evs & Hp1 & Hc & Hf & Hi & Hs).
  exists p1. rewrite (Carved_newEvents _ _ _ Hc). destruct Hc as [_ B _].
  assert (Hbox : ∀ i, i ∈ map ev_index evs →
            getVoxelColor (image p1) i = m_zeroColor ∧
            boxContains (m_volumeUpdate p1) (indexVec i)).
  { intros i Hin. split; [by rewrite Hi, bool_decide_true|]. rewrite B.
    pose proof (encloseAll_contains (map ev_index evs) (m_volumeUpdate p)) as Hall.
    rewrite Forall_forall in Hall. by apply Hall. }
  split_and!; try done.
  - apply Forall_forall. intros e He. apply Hbox. by apply list_elem_of_fmap_2.
  - intros i Hne. rewrite Hi in Hne. case_bool_decide as Hin; [by apply Hbox | done].
  - eapply Forall_impl; [exact Hs|]. intros inp H Hcarve. cbv beta in H.
    specialize (H Hcarve). destruct (Hbox _ H) as [H1 H2]. split_and!; try done.
    destruct Hf as [->|Hf]; [by apply elem_of_nil in H | done].
Qed.

(** C6: each removal sets its voxel EMPTY and encloses its index.  So after
    a run of ticks the region is the region before, grown by each removed
    index; it contains every voxel the run has published and every voxel
    whose colour the run has changed, each of which is EMPTY; a tick that
    carves has removed at least its seed and leaves the flag for the
    refresh set.  [graphicsUpdate] then reads the region and leaves it
    empty, and the removals that follow the refresh accumulate to exactly
    their index-wise bounding box, with the same relation to the image,
    also when the refresh falls between two removals of one tick. *)
Theorem dirty_region_round_trip (ticks1 ticks2 : list TickInput) (p : Plugin) :
  (∀ (i : Index) (q : Plugin) (f : bool),
     getVoxelColor (image (carveVoxel i (q, f)).1) i = m_zeroColor ∧
     (∀ j, j ≠ i → getVoxelColor (image (carveVoxel i (q, f)).1) j
                   = getVoxelColor (image q) j) ∧
     m_volumeUpdate (carveVoxel i (q, f)).1 = enclose (m_volumeUpdate q) (indexVec i) ∧
     boxContains (m_volumeUpdate (carveVoxel i (q, f)).1) (indexVec i)) ∧
  ∃ p1, runTicks ticks1 p = Some p1 ∧
    m_volumeUpdate p1 = encloseAll (m_volumeUpdate p) (map ev_index (newEvents p p1)) ∧
    Forall (λ e, getVoxelColor (image p1) (ev_index e) = m_zeroColor ∧
                 boxContains (m_volumeUpdate p1) (indexVec (ev_index e)))
           (newEvents p p1) ∧
    (∀ i, getVoxelColor (image p1) i ≠ getVoxelColor (image p) i →
          getVoxelColor (image p1) i = m_zeroColor ∧
          boxContains (m_volumeUpdate p1) (indexVec i)) ∧
    Forall (λ inp, carvingTick inp p = true →
                   getVoxelColor (image p1) (firstContact inp) = m_zeroColor ∧
                   boxContains (m_volumeUpdate p1) (indexVec (firstContact inp)) ∧
                   m_flagMarkVolumeForUpdate p1 = true)
           ticks1 ∧
    (newEvents p p1 = [] ∨ m_flagMarkVolumeForUpdate p1 = true) ∧
    if m_flagMarkVolumeForUpdate p1 then
      ∃ p2 p3,
        graphicsUpdate p1 = (p2, Some (m_volumeUpdate p1)) ∧
        m_volumeUpdate p2 = setEmpty ∧
        m_flagMarkVolumeForUpdate p2 = false ∧
        image p2 = image p1 ∧
        runTicks ticks2 p2 = Some p3 ∧
        m_volumeUpdate p3 = boxOfIndices (map ev_index (newEvents p2 p3)) ∧
        Forall (λ e, getVoxelColor (image p3) (ev_index e) = m_zeroColor ∧
                     boxContains (m_volumeUpdate p3) (indexVec (ev_index e)))
               (newEvents p2 p3) ∧
        (∀ i, getVoxelColor (image p3) i ≠ getVoxelColor (image p1) i →
              getVoxelColor (image p3) i = m_zeroColor ∧
              boxContains (m_volumeUpdate p3) (indexVec i)) ∧
        Forall (λ inp, carvingTick inp p2 = true →
                       getVoxelColor (image p3) (firstContact inp) = m_zeroColor ∧
                       boxContains (m_volumeUpdate p3) (indexVec (firstContact inp)) ∧
                       m_flagMarkVolumeForUpdate p3 = true)
               ticks2 ∧
        (∀ trace, refreshed trace = true →
                  regionAfter trace (m_volumeUpdate p1)
                  = boxOfIndices (sinceRefresh trace))
    else graphicsUpdate p1 = (p1, None).
Proof.
  split.
  { intros i q f. unfold carveVoxel. cbn [fst image m_volumeUpdate set_volumeUpdate
      set_image publish]. unfold getVoxelColor, setVoxelColor. cbn [voxels].
    split_and!.
    - by rewrite decide_True.
    - intros j Hj. by rewrite decide_False.
    - done.
    - pose proof (encloseAll_contains [i] (m_volumeUpdate q)) as H.
      by apply Forall_inv in H. }
  destruct (runTicks_region ticks1 p) as (p1 & Hp1 & Hreg & Hin & Hchg & Hseed & Hflag).
  exists p1. split_and!; [done | done | done | done | done | done |].
  unfold graphicsUpdate. destruct (m_flagMarkVolumeForUpdate p1); [|done].
  set (p2 := set_flagMark false (set_volumeUpdate setEmpty p1)).
  destruct (runTicks_region ticks2 p2) as (p3 & Hp3 & Hreg3 & Hin3 & Hchg3 & Hseed3 & _).
  exists p2, p3. split_and!; [done | done | done | done | done | | done | done | done |].
  - rewrite Hreg3. apply encloseAll_empty.
  - intros trace Hr. rewrite regionAfter_sinceRefresh, Hr. apply encloseAll_empty.
Qed.

(** * The start flag *)

Lemma forceStartRun_cons (f : Q) (forces : list Q) (st : bool * Z) :
  forceStartRun (f :: forces) st = forceStartRun forces (forceStart f st).1.
Proof. reflexivity. Qed.

Lemma forceStart_zero (f : Q) (c : Z) :
  (f == 0)%Q →
  forceStart f (true, c) = (if 10 <? c + 1 then false else true, c + 1, false) ∧
  forceStart f (false, c) = (false, c, false).
Proof.
  intros Hf. unfold forceStart.
  assert (Qeq_bool f 0 = true) as -> by (by apply Qeq_bool_iff).
  assert (Qlt_bool 10 f = false) as ->.
  { apply not_true_iff_false. rewrite Qlt_bool_true. lra. }
  simpl. by destruct (10 <? c + 1).
Qed.

Lemma forceStart_stopped (f : Q) (c : Z) :
  (f <= 10)%Q → forceStart f (false, c) = (false, c, false).
Proof.
  intros Hf. unfold forceStart.
  assert (Qlt_bool 10 f = false) as ->; [|done].
  apply not_true_iff_false. rewrite Qlt_bool_true. lra.
Qed.

Lemma forceStartRun_stopped (forces : list Q) (c : Z) :
  Forall (λ f, f <= 10)%Q forces → forceStartRun forces (false, c) = (false, c).
Proof.
  induction 1 as [|f forces Hf _ IH]; [done|].
  by rewrite forceStartRun_cons, forceStart_stopped.
Qed.

(** X9: once started, the flag survives zero-force ticks until the counter
    passes 10: from a counter [c] between 0 and 10 it is still set after
    [n] such ticks exactly when [c + n <= 10], and is then cleared with the
    counter stopped at 11; a tick with a non-zero force sets the counter
    back to 0 and re-initializes the tip cursor. *)
Theorem start_flag_quiet_ticks (forces : list Q) (c : Z) :
  0 ≤ c ≤ 10 → Forall (λ f, f == 0)%Q forces →
  forceStartRun forces (true, c) =
    (if c + Z.of_nat (length forces) <=? 10
     then (true, c + Z.of_nat (length forces)) else (false, 11)) ∧
  ∀ f, ¬ (f == 0)%Q → forceStart f (true, c) = (true, 0, true).
Proof.
  intros Hc Hall. split.
  - revert c Hc. induction Hall as [|f forces Hf Hrest IH]; intros c Hc.
    + simpl. rewrite Z.add_0_r. destruct (Z.leb_spec c 10); [done | lia].
    + rewrite forceStartRun_cons, (proj1 (forceStart_zero f c Hf)).
      cbn [fst length]. destruct (Z.ltb_spec 10 (c + 1)).
      * assert (c = 10) as -> by lia. rewrite forceStartRun_stopped.
        -- destruct (Z.leb_spec (10 + Z.of_nat (S (length forces))) 10); [lia | done].
        -- eapply Forall_impl; [exact Hrest|]. simpl. intros g Hg. lra.
      * rewrite IH by lia.
        replace (c + 1 + Z.of_nat (length forces))
          with (c + Z.of_nat (S (length forces))) by lia.
        done.
  - intros f Hf. unfold forceStart.
    destruct (Qeq_bool f 0) eqn:E; [|done]. by apply Qeq_bool_iff in E.
Qed.

Lemma start_flag_quiet_ticks_witness :
  forceStartRun (repeat 0%Q 11) (true, 0) = (false, 11).
Proof.
  destruct (start_flag_quiet_ticks (repeat 0%Q 11) 0) as [H _].
  - lia.
  - repeat constructor.
  - exact H.
Defined.

(** X10: when not started, the flag stays cleared while the force is at
    most 10 and is set by the first larger force, the counter being left
    as it is.  As the counter is then already past 10, one zero-force tick
    after the restart clears the flag again; only a tick with a non-zero
    force in between resets the counter. *)
Theorem start_flag_restart (forces : list Q) (f : Q) (c : Z) :
  10 ≤ c < 2147483647 → (10 < f)%Q → Forall (λ g, g <= 10)%Q forces →
  forceStartRun forces (false, c) = (false, c) ∧
  forceStartRun (forces ++ [f]) (false, c) = (true, c) ∧
  forceStartRun (forces ++ [f; 0%Q]) (false, c) = (false, c + 1) ∧
  forceStartRun (forces ++ [f; f; 0%Q]) (false, c) = (true, 1).
Proof.
  intros Hc Hf Hall.
  assert (forceStart f (false, c) = (true, c, false)) as Hset.
  { unfold forceStart. assert (Qlt_bool 10 f = true) as ->; [|done].
    by apply Qlt_bool_true. }
  assert (forceStart f (true, c) = (true, 0, true)) as Hreset.
  { unfold forceStart. assert (Qeq_bool f 0 = false) as ->; [|done].
    apply not_true_iff_false. rewrite Qeq_bool_iff. lra. }
  unfold forceStartRun in *. rewrite !fold_left_app.
  fold (forceStartRun forces (false, c)). rewrite forceStartRun_stopped by done.
  split; [done|]. cbn [fold_left]. rewrite Hset. cbn [fst].
  split; [done|]. rewrite Hreset. cbn [fst]. split; [|done].
  rewrite (proj1 (forceStart_zero 0 c (Qeq_refl 0))). cbn [fst].
  destruct (Z.ltb_spec 10 (c + 1)); [done | lia].
Qed.

Lemma start_flag_restart_witness :
  forceStartRun [5; 20; 0]%Q (false, 11) = (false, 12).
Proof.
  destruct (start_flag_restart [5%Q] 20%Q 11) as (_ & _ & H & _).
  - lia.
  - reflexivity.
  - repeat constructor. discriminate.
  - exact H.
Defined.

(** * Manipulation *)

Lemma manipulation_mode (b : bool) (m : ControlMode) :
  (manipulation b m).1 = if b then HAPTIC_SELECTION else HAPTIC_IDLE.
Proof. by destruct m, b. Qed.

Lemma manipulationRun_snoc (pre : list bool) (b : bool) :
  ∀ m, manipulationRun (pre ++ [b]) m =
       manipulationRun pre m ++
       [(manipulation b (match last pre with
                         | Some true => HAPTIC_SELECTION
                         | Some false => HAPTIC_IDLE
                         | None => m
                         end)).2].
Proof.
  induction pre as [|a pre IH]; intros m; simpl.
  - by destruct (manipulation b m).
  - pose proof (manipulation_mode a m) as Hm.
    destruct (manipulation a m) as [m' st]. simpl in Hm. subst m'.
    rewrite IH. destruct pre as [|a' pre']; [by destruct a|].
    rewrite last_cons_cons. destruct (last (a' :: pre')) as [[]|] eqn:E; try done.
    by apply last_None in E.
Qed.

(** X11: the mode after a tick is SELECTION exactly when the switch is
    pressed in that tick, whatever the mode before.  Starting idle, a tick
    with the switch pressed runs the grab branch (STATE 1) if the switch
    was not pressed in the tick before and the move branch (STATE 2) if it
    was; a tick with the switch released runs the release branch. *)
Theorem manipulation_follows_switch (pre : list bool) (b : bool) (m : ControlMode) :
  (manipulation b m).1 = (if b then HAPTIC_SELECTION else HAPTIC_IDLE) ∧
  manipulationRun (pre ++ [b]) HAPTIC_IDLE =
    manipulationRun pre HAPTIC_IDLE ++
    [if b then (if default false (last pre) then STATE_2 else STATE_1) else STATE_3].
Proof.
  split; [apply manipulation_mode|].
  rewrite manipulationRun_snoc. f_equal. f_equal.
  by destruct (last pre) as [[]|], b.
Qed.

(** * The device pose *)

Lemma veq_refl (a : cVector3d) : veq a a.
Proof. by split_and!. Qed.

(** X12: with the clutch switch held the device moves the orientation of
    [T_d] only: its position stays where it was (the workspace scale factor
    being non-zero); without a device [T_d] is the transform of the drill
    body. *)
Theorem clutch_holds_position (d : DeviceSample) (camRot : cMatrix3d) (scale : Q)
        (drill t : cTransform) :
  clutch d = true → ¬ (scale == 0)%Q →
  (∃ t', updateDevicePose (Some d) camRot scale drill t = Some t' ∧
         veq (getLocalPos t') (getLocalPos t) ∧
         getLocalRot t' = mulMM camRot (getLocalRot (T_i d))) ∧
  updateDevicePose None camRot scale drill t = Some drill.
Proof.
  intros Hcl Hs. split; [|done]. unfold updateDevicePose, vdiv. rewrite Hcl.
  destruct (Qeq_bool scale 0) eqn:E; [by apply Qeq_bool_iff in E|].
  eexists. split; [done|]. split; [|done].
  unfold veq. simpl. split_and!; field; done.
Qed.

Lemma clutch_holds_position_witness :
  ∃ t', updateDevicePose (Some (mkSample (mkTransform (mkVec 0 0 0) identityRot)
                                         (mkVec 1 2 3) true))
          identityRot 2 (mkTransform (mkVec 0 0 0) identityRot)
          (mkTransform (mkVec 5 5 5) identityRot) = Some t' ∧
        veq (getLocalPos t') (mkVec 5 5 5).
Proof.
  destruct (clutch_holds_position
              (mkSample (mkTransform (mkVec 0 0 0) identityRot) (mkVec 1 2 3) true)
              identityRot 2 (mkTransform (mkVec 0 0 0) identityRot)
              (mkTransform (mkVec 5 5 5) identityRot)) as [(t' & H1 & H2 & _) _].
  - reflexivity.
  - discriminate.
  - exists t'. split; [exact H1 | exact H2].
Defined.

(** * Keys *)

Ltac list_cases H :=
  repeat (apply elem_of_cons in H as [H|H]); [.. | by apply elem_of_nil in H].

(** One pose key: it changes [T_d] and, without a haptic device, puts the
    drill body on it. *)
Lemma poseKey_step (ctx : Full.KeyContext) (k : bool * Full.Key) (s : Full.Scene) :
  k ∈ poseKeys →
  let s' := Full.keyboardUpdate ctx k.1 k.2 s in
  Full.plugin s' = Full.plugin s ∧
  Full.m_voxelObj s' = Full.m_voxelObj s ∧
  Full.drillTransform s' =
    (if Full.isDeviceAvailable ctx then Full.drillTransform s else Full.T_d s') ∧
  (k.1 = true → getLocalRot (Full.T_d s') = getLocalRot (Full.T_d s)) ∧
  (k.1 = false → getLocalPos (Full.T_d s') = getLocalPos (Full.T_d s)).
Proof.
  intros Hk. list_cases Hk; subst k; simpl;
    (split_and!; [done | done | by destruct (Full.isDeviceAvailable ctx) | done | done]).
Qed.

Lemma poseKeys_run (ctx : Full.KeyContext) (keys : list (bool * Full.Key)) :
  Forall (λ k, k ∈ poseKeys) keys →
  ∀ s, let s' := Full.pressKeys ctx keys s in
    Full.plugin s' = Full.plugin s ∧
    Full.m_voxelObj s' = Full.m_voxelObj s ∧
    Full.drillTransform s' =
      (if Full.isDeviceAvailable ctx then Full.drillTransform s
       else match keys with [] => Full.drillTransform s | _ => Full.T_d s' end) ∧
    (Forall (λ k, k.1 = true) keys →
     getLocalRot (Full.T_d s') = getLocalRot (Full.T_d s)) ∧
    (Forall (λ k, k.1 = false) keys →
     getLocalPos (Full.T_d s') = getLocalPos (Full.T_d s)).
Proof.
  induction 1 as [|k keys Hk _ IH]; intros s.
  - simpl. split_and!; try done. by destruct (Full.isDeviceAvailable ctx).
  - destruct (poseKey_step ctx k s Hk) as (P1 & V1 & D1 & R1 & L1).
    specialize (IH (Full.keyboardUpdate ctx k.1 k.2 s)).
    unfold Full.pressKeys in *. cbn [fold_left] in *.
    destruct IH as (P2 & V2 & D2 & R2 & L2).
    split_and!.
    + by rewrite P2.
    + by rewrite V2.
    + rewrite D2, D1. destruct (Full.isDeviceAvailable ctx); [done|]. by destruct keys.
    + intros Hm. apply Forall_cons in Hm as [Hm1 Hm2]. rewrite R2 by done. by apply R1.
    + intros Hm. apply Forall_cons in Hm as [Hm1 Hm2]. rewrite L2 by done. by apply L1.
Qed.

(** X13: the ten keys that move or turn the tool (W, A, S, D, I, K with
    control; keypad 4, 5, 6, 8 without) change nothing but the pose: after
    any sequence of them, one at least, the plugin and the volume are as
    they were, the drill body sits on [T_d] when no haptic device is
    available and is where it was when one is, a sequence of motion keys
    has not turned [T_d], and a sequence of rotation keys has not moved
    it. *)
Theorem pose_keys_change_pose_only (ctx : Full.KeyContext) (keys : list (bool * Full.Key))
        (s : Full.Scene) :
  keys ≠ [] → Forall (λ k, k ∈ poseKeys) keys →
  let s' := Full.pressKeys ctx keys s in
  Full.plugin s' = Full.plugin s ∧
  Full.m_voxelObj s' = Full.m_voxelObj s ∧
  Full.drillTransform s' =
    (if Full.isDeviceAvailable ctx then Full.drillTransform s else Full.T_d s') ∧
  (Forall (λ k, k.1 = true) keys →
   getLocalRot (Full.T_d s') = getLocalRot (Full.T_d s)) ∧
  (Forall (λ k, k.1 = false) keys →
   getLocalPos (Full.T_d s') = getLocalPos (Full.T_d s)).
Proof.
  intros Hne Hkeys.
  destruct (poseKeys_run ctx keys Hkeys s) as (P & V & D & R & L).
  split_and!; try done. rewrite D. by destruct keys.
Qed.

Lemma pose_keys_change_pose_only_witness :
  Full.drillTransform
    (Full.pressKeys sampleContext
       [(true, Full.GLFW_KEY_W); (false, Full.GLFW_KEY_KP_5)] sampleScene)
  = Full.T_d
      (Full.pressKeys sampleContext
         [(true, Full.GLFW_KEY_W); (false, Full.GLFW_KEY_KP_5)] sampleScene).
Proof.
  destruct (pose_keys_change_pose_only sampleContext
              [(true, Full.GLFW_KEY_W); (false, Full.GLFW_KEY_KP_5)] sampleScene)
    as (_ & _ & H & _).
  - discriminate.
  - repeat constructor.
  - exact H.
Defined.

Lemma cClamp_cases (x lo hi : Q) :
  ((x < lo)%Q ∧ cClamp x lo hi = lo) ∨
  ((lo <= x)%Q ∧ (hi < x)%Q ∧ cClamp x lo hi = hi) ∨
  ((lo <= x)%Q ∧ (x <= hi)%Q ∧ cClamp x lo hi = x).
Proof.
  unfold cClamp. destruct (Qlt_bool x lo) eqn:E1.
  - left. by apply Qlt_bool_true in E1.
  - assert (lo <= x)%Q.
    { apply Qnot_lt_le. intros H. apply Qlt_bool_true in H. congruence. }
    right. destruct (Qlt_bool hi x) eqn:E2.
    + left. by apply Qlt_bool_true in E2.
    + right. split_and!; [done | | done].
      apply Qnot_lt_le. intros H'. apply Qlt_bool_true in H'. congruence.
Qed.

Lemma vget_vset (v : cVector3d) (i j : Z) (q : Q) :
  0 ≤ i ≤ 2 → 0 ≤ j ≤ 2 →
  vget (vset v i q) j = if decide (j = i) then q else vget v j.
Proof.
  intros Hi Hj.
  assert (i = 0 ∨ i = 1 ∨ i = 2) as [-> | [-> | ->]] by lia;
    assert (j = 0 ∨ j = 1 ∨ j = 2) as [-> | [-> | ->]] by lia; done.
Qed.

(** X14: after any of the resize keys 4 to 9, along the axis of the key
    the maximal corner lies between 0.01 and 0.5, the minimal corner is its
    opposite, the texture coordinates are 0.5 minus and plus it (so within
    0 and 1, and never equal to each other); the other axes and the plugin
    are left as they were. *)
Theorem resize_key_bounds (ctx : Full.KeyContext) (key : Full.Key) (axis : Z) (step : Q)
        (s : Full.Scene) :
  (key, axis, step) ∈ resizeKeys →
  let v := Full.m_voxelObj s in
  let v' := Full.m_voxelObj (Full.keyboardUpdate ctx false key s) in
  let value := vget (m_maxCorner v') axis in
  value = cClamp (vget (m_maxCorner v) axis + step) (1 # 100) (1 # 2) ∧
  (1 # 100 <= value)%Q ∧ (value <= 1 # 2)%Q ∧
  vget (m_minCorner v') axis = (- value)%Q ∧
  vget (m_minTextureCoord v') axis = ((1 # 2) - value)%Q ∧
  vget (m_maxTextureCoord v') axis = ((1 # 2) + value)%Q ∧
  (0 <= vget (m_minTextureCoord v') axis)%Q ∧
  (vget (m_maxTextureCoord v') axis <= 1)%Q ∧
  ¬ (vget (m_maxTextureCoord v') axis == vget (m_minTextureCoord v') axis)%Q ∧
  (∀ j, 0 ≤ j ≤ 2 → j ≠ axis →
        vget (m_minCorner v') j = vget (m_minCorner v) j ∧
        vget (m_maxCorner v') j = vget (m_maxCorner v) j ∧
        vget (m_minTextureCoord v') j = vget (m_minTextureCoord v) j ∧
        vget (m_maxTextureCoord v') j = vget (m_maxTextureCoord v) j) ∧
  Full.plugin (Full.keyboardUpdate ctx false key s) = Full.plugin s.
Proof.
  intros Hk v v' value.
  assert (0 ≤ axis ≤ 2 ∧ v' = resizeAxis axis step v) as [Hax Hv'].
  { list_cases Hk; injection Hk as -> -> ->; (split; [lia | done]). }
  assert (Full.plugin (Full.keyboardUpdate ctx false key s) = Full.plugin s) as Hpl.
  { list_cases Hk; by injection Hk as -> -> ->. }
  clear Hk. subst value. rewrite Hv'. unfold resizeAxis. cbn [m_minCorner m_maxCorner
    m_minTextureCoord m_maxTextureCoord].
  set (c := cClamp (vget (m_maxCorner v) axis + step) (1 # 100) (1 # 2)).
  rewrite !vget_vset by lia. rewrite !decide_True by done.
  assert (1 # 100 <= c ∧ c <= 1 # 2)%Q as [Hlo Hhi].
  { subst c.
    destruct (cClamp_cases (vget (m_maxCorner v) axis + step) (1 # 100) (1 # 2))
      as [[_ ->]|[(_ & _ & ->)|(? & ? & ->)]]; split; (done || lra || discriminate). }
  split_and!; try done; try lra.
  intros j Hj Hne. rewrite !vget_vset by lia. by rewrite !decide_False by done.
Qed.

Lemma resize_key_bounds_witness :
  (1 # 100 <= vget (m_maxCorner (Full.m_voxelObj
                     (Full.keyboardUpdate sampleContext false Full.GLFW_KEY_4 sampleScene))) 0)%Q.
Proof.
  destruct (resize_key_bounds sampleContext Full.GLFW_KEY_4 0 (- (5 # 1000))%Q sampleScene)
    as (_ & H & _).
  - apply list_elem_of_here.
  - exact H.
Defined.

Lemma resizeAxis_extent (i axis : Z) (step : Q) (v : cVoxelObject) :
  0 ≤ i ≤ 2 → 0 ≤ axis ≤ 2 →
  sameExtent v (resizeAxis i step v) axis ∨ resized (resizeAxis i step v) axis.
Proof.
  intros Hi Hax. unfold sameExtent, resized, resizeAxis.
  cbn [m_minCorner m_maxCorner m_minTextureCoord m_maxTextureCoord].
  rewrite !vget_vset by lia. destruct (decide (axis = i)) as [->|Hne]; [right|by left].
  destruct (cClamp_cases (vget (m_maxCorner v) i + step) (1 # 100) (1 # 2))
    as [[_ ->]|[(_ & _ & ->)|(? & ? & ->)]]; split_and!; (done || discriminate).
Qed.

Lemma key_extent (ctx : Full.KeyContext) (ctrl : bool) (key : Full.Key) (s : Full.Scene)
      (axis : Z) :
  0 ≤ axis ≤ 2 →
  sameExtent (Full.m_voxelObj s) (Full.m_voxelObj (Full.keyboardUpdate ctx ctrl key s)) axis ∨
  resized (Full.m_voxelObj (Full.keyboardUpdate ctx ctrl key s)) axis.
Proof.
  intros Hax.
  destruct ctrl, key; simpl;
    first [ by left | apply resizeAxis_extent; lia ].
Qed.

(** X15: the keyboard cannot take the volume out of bounds.  After any
    sequence of key presses, with or without control, the extents along an
    axis are either what they were before the sequence or as a resize key
    leaves them: the maximal corner within 0.01 and 0.5, the minimal corner
    its opposite, the texture coordinates 0.5 minus and plus it. *)
Theorem keys_keep_extent_bounds (ctx : Full.KeyContext) (keys : list (bool * Full.Key))
        (s : Full.Scene) (axis : Z) :
  0 ≤ axis ≤ 2 →
  sameExtent (Full.m_voxelObj s) (Full.m_voxelObj (Full.pressKeys ctx keys s)) axis ∨
  resized (Full.m_voxelObj (Full.pressKeys ctx keys s)) axis.
Proof.
  intros Hax. revert s. induction keys as [|k keys IH]; intros s.
  - left. by split_and!.
  - unfold Full.pressKeys in *. cbn [fold_left].
    destruct (IH (Full.keyboardUpdate ctx k.1 k.2 s)) as [(A1 & A2 & A3 & A4)|Hr];
      [|by right].
    destruct (key_extent ctx k.1 k.2 s axis Hax) as [(B1 & B2 & B3 & B4)|Hr].
    + left. split_and!; congruence.
    + right. unfold resized in *. rewrite A1, A2, A3, A4. exact Hr.
Qed.

Lemma keys_keep_extent_bounds_witness :
  resized (Full.m_voxelObj
             (Full.pressKeys sampleContext
                [(false, Full.GLFW_KEY_5); (true, Full.GLFW_KEY_W); (false, Full.GLFW_KEY_5)]
                sampleScene)) 0.
Proof.
  destruct (keys_keep_extent_bounds sampleContext
              [(false, Full.GLFW_KEY_5); (true, Full.GLFW_KEY_W); (false, Full.GLFW_KEY_5)]
              sampleScene 0) as [(_ & H & _)|H].
  - lia.
  - exfalso. revert H. vm_compute. discriminate.
  - exact H.
Defined.

(** * The drill pose *)

Lemma between_refl (a b : Q) : between a a b.
Proof.
  unfold between. destruct (Qlt_le_dec b a); [right | left]; split;
    first [apply Qle_refl | by apply Qlt_le_weak | done].
Qed.

(** One easing step on a coordinate does not leave the stretch between the
    coordinate and the one it follows. *)
Lemma ease_between (a x f : Q) :
  between a x f → between a (x + (f - x) * (4 # 100)) f.
Proof. unfold between. intros [[? ?]|[? ?]]; [left | right]; split; lra. Qed.

(** X16: while a shaft cursor within 0.001 of its goal is the target and
    the drill has the rotation of the tip, a call without easing puts the
    drill on the follow position, and a second such call leaves it there.
    With easing the drill keeps the rotation of the tip, and after any
    number of calls each coordinate of its position lies between the one
    it started from and the one it follows; a further call moves it towards
    the follow position without passing it, and leaves it there once it
    has arrived. *)
Theorem drill_follows_shaft (m_dX : Q) (r : ShaftReading) (drill : cTransform) (n : nat) :
  targetIdx r ≠ 0 → (targetError r <= 1 # 1000)%Q →
  getLocalRot drill = tipDeviceRot r →
  let follow := followPos m_dX r drill in
  let jumped := drillPosUpdate m_dX false r drill in
  let eased := Nat.iter n (drillPosUpdate m_dX true r) drill in
  jumped = mkTransform follow (tipDeviceRot r) ∧
  drillPosUpdate m_dX false r jumped = jumped ∧
  getLocalRot eased = tipDeviceRot r ∧
  vbetween (getLocalPos drill) (getLocalPos eased) follow ∧
  vbetween (getLocalPos eased) (getLocalPos (drillPosUpdate m_dX true r eased)) follow ∧
  (veq (getLocalPos eased) follow →
   veq (getLocalPos (drillPosUpdate m_dX true r eased)) follow).
Proof.
  intros Hidx Herr Hrot follow jumped eased.
  assert (Hstep : ∀ jump d, getLocalRot d = tipDeviceRot r →
            drillPosUpdate m_dX jump r d =
              mkTransform
                (if negb jump then follow
                 else vadd (getLocalPos d)
                           (vscale (vsub follow (getLocalPos d)) (4 # 100)))
                (tipDeviceRot r)).
  { intros jump d Hd. unfold drillPosUpdate, follow, followPos.
    rewrite (proj2 (Z.eqb_neq _ _) Hidx).
    rewrite (proj2 (Qle_bool_iff _ _) Herr). by rewrite Hd, Hrot. }
  assert (Hrun : getLocalRot eased = tipDeviceRot r ∧
                 vbetween (getLocalPos drill) (getLocalPos eased) follow).
  { subst eased. induction n as [|n [IHrot IHpos]].
    - split; [done|]. change (Nat.iter 0 (drillPosUpdate m_dX true r) drill) with drill.
      split_and!; apply between_refl.
    - rewrite Nat.iter_succ, Hstep by done. split; [done|].
      destruct IHpos as (Hx & Hy & Hz).
      unfold vbetween, vsub, vscale, vadd in *. cbn [vx vy vz getLocalPos negb] in *.
      split_and!; by apply ease_between. }
  destruct Hrun as [Hrot' Hpos].
  split; [by apply Hstep|]. split.
  { subst jumped. rewrite (Hstep false drill Hrot). by rewrite Hstep. }
  split; [done|]. split; [done|].
  rewrite (Hstep true eased Hrot'). cbn [negb getLocalPos].
  unfold vbetween, veq, vsub, vscale, vadd. cbn [vx vy vz]. split.
  - split_and!; apply ease_between, between_refl.
  - intros (Hx & Hy & Hz). split_and!; lra.
Qed.

Lemma drill_follows_shaft_witness :
  getLocalPos (drillPosUpdate (1 # 40) false
                 (mkReading 2 (mkVec 0 0 0) identityRot (mkVec 1 0 0) (1 # 2000))
                 (mkTransform (mkVec 0 0 0) identityRot))
  = followPos (1 # 40) (mkReading 2 (mkVec 0 0 0) identityRot (mkVec 1 0 0) (1 # 2000))
              (mkTransform (mkVec 0 0 0) identityRot).
Proof.
  destruct (drill_follows_shaft (1 # 40)
              (mkReading 2 (mkVec 0 0 0) identityRot (mkVec 1 0 0) (1 # 2000))
              (mkTransform (mkVec 0 0 0) identityRot) 0) as [H _].
  - discriminate.
  - discriminate.
  - reflexivity.
  - by rewrite H.
Defined.

(** * Drill size, press after press *)

(** X17: after [n >= 1] presses of the size key from an index among 0, 1,
    2, the index is the old one plus [n] modulo 3, the size and both radii
    are the ones of that index, and the radius is never the 0.043 that
    [init] had set, not even when the size reads 2 mm again; voxels,
    telemetry, the dirty region and the flag for the refresh are left as
    they were. *)
Theorem drill_size_after_presses (p : Plugin) (n : nat) :
  0 ≤ m_drillSizeIdx p ≤ 2 → (0 < n)%nat →
  let p' := Nat.iter n changeDrillSize p in
  m_drillSizeIdx p' = (m_drillSizeIdx p + Z.of_nat n) mod 3 ∧
  m_currDrillSize p' = drillSizeOf (m_drillSizeIdx p') ∧
  tipRadius p' = drillRadiusOf (m_drillSizeIdx p') ∧
  burrRadius p' = drillRadiusOf (m_drillSizeIdx p') ∧
  ¬ (tipRadius p' == initialRadius)%Q ∧
  image p' = image p ∧ published p' = published p ∧
  m_volumeUpdate p' = m_volumeUpdate p ∧
  m_flagMarkVolumeForUpdate p' = m_flagMarkVolumeForUpdate p.
Proof.
  intros Hidx Hn. destruct n as [|n]; [lia|]. clear Hn. cbv zeta.
  assert (Hone : ∀ q, 0 ≤ m_drillSizeIdx q ≤ 2 →
            m_drillSizeIdx (changeDrillSize q) = (m_drillSizeIdx q + 1) mod 3 ∧
            m_currDrillSize (changeDrillSize q) = drillSizeOf (m_drillSizeIdx (changeDrillSize q)) ∧
            tipRadius (changeDrillSize q) = drillRadiusOf (m_drillSizeIdx (changeDrillSize q)) ∧
            burrRadius (changeDrillSize q) = drillRadiusOf (m_drillSizeIdx (changeDrillSize q)) ∧
            ¬ (tipRadius (changeDrillSize q) == initialRadius)%Q ∧
            image (changeDrillSize q) = image q ∧ published (changeDrillSize q) = published q ∧
            m_volumeUpdate (changeDrillSize q) = m_volumeUpdate q ∧
            m_flagMarkVolumeForUpdate (changeDrillSize q) = m_flagMarkVolumeForUpdate q).
  { intros q Hq. unfold changeDrillSize.
    assert (m_drillSizeIdx q = 0 ∨ m_drillSizeIdx q = 1 ∨ m_drillSizeIdx q = 2)
      as [E|[E|E]] by lia; rewrite E; simpl; by split_and!. }
  induction n as [|n IH].
  - rewrite Nat.iter_succ. simpl Nat.iter. apply Hone. done.
  - rewrite Nat.iter_succ. destruct IH as (I1 & I2 & I3 & I4 & I5 & I6 & I7 & I8 & I9).
    set (q := Nat.iter (S n) changeDrillSize p) in *.
    assert (0 ≤ m_drillSizeIdx q ≤ 2) as Hq.
    { rewrite I1.
      pose proof (Z.mod_pos_bound (m_drillSizeIdx p + Z.of_nat (S n)) 3). lia. }
    destruct (Hone q Hq) as (J1 & J2 & J3 & J4 & J5 & J6 & J7 & J8 & J9).
    split_and!; try congruence.
    rewrite J1, I1. rewrite Zplus_mod_idemp_l. f_equal. lia.
Qed.

Lemma drill_size_after_presses_witness :
  m_currDrillSize (Nat.iter 3 changeDrillSize boneCube) = 2 ∧
  ¬ (tipRadius (Nat.iter 3 changeDrillSize boneCube) == initialRadius)%Q.
Proof.
  destruct (drill_size_after_presses boneCube 3) as (_ & H2 & _ & _ & H5 & _).
  - simpl. lia.
  - lia.
  - split; [exact H2 | exact H5].
Defined.

(** * The corner table *)

Section CornerTable.

Variable voxelObjRot : cMatrix3d.
Variable v000GlobalPos : cVector3d.
Variable voxelSize : Q * Q * Q.

Local Abbreviation corner := (cornerPosition voxelObjRot v000GlobalPos voxelSize).

Lemma elem_of_bits (x : Z) : x ∈ [0; 1] ↔ x = 0 ∨ x = 1.
Proof. rewrite !elem_of_cons, elem_of_nil. tauto. Qed.

Lemma elem_of_cornerWrites (W H D o : Z) (c : cVector3d) :
  (o, c) ∈ cornerWrites voxelObjRot v000GlobalPos voxelSize (W, H, D) ↔
  ∃ i j k x y z,
    0 ≤ i < W ∧ 0 ≤ j < H ∧ 0 ≤ k < D ∧
    (x = 0 ∨ x = 1) ∧ (y = 0 ∨ y = 1) ∧ (z = 0 ∨ z = 1) ∧
    o = i * (H * D * 8) + j * (D * 8) + k * 8 + (4 * x + 2 * y + z) ∧
    c = corner (i, j, k) x y z.
Proof.
  unfold cornerWrites. rewrite list_elem_of_bind.
  repeat setoid_rewrite list_elem_of_bind.
  setoid_rewrite list_elem_of_singleton. setoid_rewrite elem_of_seqZ.
  setoid_rewrite elem_of_bits. split.
  - intros (i & (j & (k & (x & (y & (z & E & ?) & ?) & ?) & ?) & ?) & ?).
    injection E as -> ->. exists i, j, k, x, y, z. split_and!; (done || lia).
  - intros (i & j & k & x & y & z & ? & ? & ? & ? & ? & ? & -> & ->).
    exists i. split; [|lia]. exists j. split; [|lia]. exists k. split; [|lia].
    exists x. split; [|done]. exists y. split; [|done]. exists z. by split.
Qed.

(** Distinct voxels and corners are assigned distinct slots. *)
Lemma offset_inj (H D i j k c i' j' k' c' : Z) :
  0 ≤ j < H → 0 ≤ k < D → 0 ≤ c < 8 →
  0 ≤ j' < H → 0 ≤ k' < D → 0 ≤ c' < 8 →
  i * (H * D * 8) + j * (D * 8) + k * 8 + c
  = i' * (H * D * 8) + j' * (D * 8) + k' * 8 + c' →
  i = i' ∧ j = j' ∧ k = k' ∧ c = c'.
Proof.
  intros Hj Hk Hc Hj' Hk' Hc' E.
  assert (R : ∀ i j k c, i * (H * D * 8) + j * (D * 8) + k * 8 + c
                         = 8 * ((i * H + j) * D + k) + c) by (intros; ring).
  rewrite !R in E.
  assert (Hdiv : ∀ t t' r r' n, 0 ≤ r < n → 0 ≤ r' < n →
                   t * n + r = t' * n + r' → t = t' ∧ r = r').
  { intros t t' r r' n Hr Hr' Heq.
    assert (t = t') as -> by (destruct (Z.lt_trichotomy t t') as [?|[?|?]]; [nia | done | nia]).
    split; [done | lia]. }
  assert ((i * H + j) * D + k = (i' * H + j') * D + k' ∧ c = c') as [E2 ->] by lia.
  destruct (Hdiv _ _ _ _ _ Hk Hk' E2) as [E3 ->].
  destruct (Hdiv _ _ _ _ _ Hj Hj' E3) as [-> ->].
  done.
Qed.

Lemma bits_inj (x y z x' y' z' : Z) :
  (x = 0 ∨ x = 1) → (y = 0 ∨ y = 1) → (z = 0 ∨ z = 1) →
  (x' = 0 ∨ x' = 1) → (y' = 0 ∨ y' = 1) → (z' = 0 ∨ z' = 1) →
  4 * x + 2 * y + z = 4 * x' + 2 * y' + z' → x = x' ∧ y = y' ∧ z = z'.
Proof. lia. Qed.

Lemma cornerWrites_functional (W H D o : Z) (c c' : cVector3d) :
  (o, c) ∈ cornerWrites voxelObjRot v000GlobalPos voxelSize (W, H, D) →
  (o, c') ∈ cornerWrites voxelObjRot v000GlobalPos voxelSize (W, H, D) →
  c = c'.
Proof.
  rewrite !elem_of_cornerWrites.
  intros (i & j & k & x & y & z & ? & ? & ? & ? & ? & ? & -> & ->)
         (i' & j' & k' & x' & y' & z' & ? & ? & ? & ? & ? & ? & E & ->).
  apply offset_inj in E as (-> & -> & -> & E); [|lia..].
  apply bits_inj in E as (-> & -> & ->); done.
Qed.

End CornerTable.

Lemma writes_lookup_absent (l : list (Z * cVector3d)) :
  ∀ (m : gmap Z cVector3d) k,
    (∀ v, (k, v) ∉ l) →
    fold_left (λ m w, <[w.1 := w.2]> m) l m !! k = m !! k.
Proof.
  induction l as [|[k' v'] l IH]; intros m k Hk; simpl; [done|].
  rewrite IH.
  - apply lookup_insert_ne. intros ->. apply (Hk v'). left.
  - intros v Hv. apply (Hk v). by right.
Qed.

Lemma writes_lookup (l : list (Z * cVector3d)) :
  ∀ (m : gmap Z cVector3d) k v,
    (k, v) ∈ l → (∀ v', (k, v') ∈ l → v' = v) →
    fold_left (λ m w, <[w.1 := w.2]> m) l m !! k = Some v.
Proof.
  induction l as [|[k' v'] l IH]; intros m k v Hin Hfun; simpl; [by inversion Hin|].
  destruct (decide (k ∈ l.*1)) as [Hl|Hl].
  - apply list_elem_of_fmap in Hl as ([k0 v0] & -> & Hl). simpl in *.
    assert (v0 = v) as -> by (apply Hfun; by right).
    apply IH; [done|]. intros v'' Hv''. apply Hfun. by right.
  - assert (∀ v'', (k, v'') ∉ l) as Habs.
    { intros v'' Hv''. apply Hl. apply list_elem_of_fmap. by exists (k, v''). }
    apply elem_of_cons in Hin as [[= <- <-]|?]; [|by destruct (Habs v)].
    rewrite writes_lookup_absent by done. apply lookup_insert_eq.
Qed.

Lemma writes_dom (l : list (Z * cVector3d)) :
  ∀ (m : gmap Z cVector3d),
    dom (fold_left (λ m w, <[w.1 := w.2]> m) l m) = dom m ∪ list_to_set (l.*1).
Proof.
  induction l as [|[k v] l IH]; intros m; simpl.
  - set_solver.
  - rewrite IH, dom_insert_L. set_solver.
Qed.

(** Every slot of the allocation is the slot of some voxel corner. *)
Lemma offset_surj (W H D o : Z) :
  0 ≤ W → 0 ≤ H → 0 ≤ D → 0 ≤ o < W * H * D * 8 →
  ∃ i j k x y z,
    0 ≤ i < W ∧ 0 ≤ j < H ∧ 0 ≤ k < D ∧
    (x = 0 ∨ x = 1) ∧ (y = 0 ∨ y = 1) ∧ (z = 0 ∨ z = 1) ∧
    o = i * (H * D * 8) + j * (D * 8) + k * 8 + (4 * x + 2 * y + z).
Proof.
  intros HW HH HD Ho.
  assert (0 < H ∧ 0 < D) as [HH' HD'] by nia.
  exists (o / 8 / D / H), (o / 8 / D mod H), (o / 8 mod D),
         (o mod 8 / 4), (o mod 8 / 2 mod 2), (o mod 8 mod 2).
  pose proof (Z.div_mod o 8 ltac:(lia)) as E1.
  pose proof (Z.mod_pos_bound o 8 ltac:(lia)) as B1.
  pose proof (Z.div_mod (o / 8) D ltac:(lia)) as E2.
  pose proof (Z.mod_pos_bound (o / 8) D ltac:(lia)) as B2.
  pose proof (Z.div_mod (o / 8 / D) H ltac:(lia)) as E3.
  pose proof (Z.mod_pos_bound (o / 8 / D) H ltac:(lia)) as B3.
  assert (0 ≤ o / 8 < W * H * D) as Ha.
  { split; [apply Z.div_pos; lia | apply Z.div_lt_upper_bound; lia]. }
  assert (0 ≤ o / 8 / D < W * H) as Hb.
  { split; [apply Z.div_pos; lia | apply Z.div_lt_upper_bound; [lia|]].
    replace (D * (W * H)) with (W * H * D) by ring. lia. }
  assert (0 ≤ o / 8 / D / H < W) as Hi.
  { split; [apply Z.div_pos; lia | apply Z.div_lt_upper_bound; [lia|]].
    replace (H * W) with (W * H) by ring. lia. }
  set (c := o mod 8) in *. set (a := o / 8) in *.
  set (k := a mod D) in *. set (b := a / D) in *.
  set (j := b mod H) in *. set (i := b / H) in *.
  assert (c / 4 = 0 ∨ c / 4 = 1) by (pose proof (Z.div_mod c 4 ltac:(lia));
    pose proof (Z.mod_pos_bound c 4 ltac:(lia)); lia).
  pose proof (Z.div_mod c 2 ltac:(lia)) as E4.
  pose proof (Z.mod_pos_bound c 2 ltac:(lia)) as B4.
  pose proof (Z.div_mod (c / 2) 2 ltac:(lia)) as E5.
  pose proof (Z.mod_pos_bound (c / 2) 2 ltac:(lia)) as B5.
  assert (c / 2 / 2 = c / 4) as E6 by (rewrite Z.div_div by lia; done).
  split_and!; lia.
Qed.

(** The slot of a voxel corner lies within the allocation. *)
Lemma offset_range (W H D i j k c : Z) :
  0 ≤ i < W → 0 ≤ j < H → 0 ≤ k < D → 0 ≤ c < 8 →
  0 ≤ i * (H * D * 8) + j * (D * 8) + k * 8 + c < W * H * D * 8.
Proof.
  intros Hi Hj Hk Hc.
  replace (i * (H * D * 8) + j * (D * 8) + k * 8 + c)
    with (8 * ((i * H + j) * D + k) + c) by ring.
  assert (0 ≤ i * H + j ≤ W * H - 1) as Ht.
  { assert (0 ≤ i * H) by (apply Z.mul_nonneg_nonneg; lia).
    assert (i * H ≤ (W - 1) * H) by (apply Z.mul_le_mono_nonneg_r; lia).
    replace ((W - 1) * H) with (W * H - H) in * by ring. lia. }
  assert (0 ≤ (i * H + j) * D + k ≤ W * H * D - 1) as Hu.
  { assert (0 ≤ (i * H + j) * D) by (apply Z.mul_nonneg_nonneg; lia).
    assert ((i * H + j) * D ≤ (W * H - 1) * D) by (apply Z.mul_le_mono_nonneg_r; lia).
    replace ((W * H - 1) * D) with (W * H * D - D) in * by ring. lia. }
  lia.
Qed.

(** X18: for a texture of W x H x D voxels the loops of [init] assign
    exactly the slots 0 .. W*H*D*8 - 1 of [voxelCorners], each of them and
    none outside the allocation. *)
Theorem corner_table_slots (rot : cMatrix3d) (v000 : cVector3d) (size : Q * Q * Q)
        (W H D : Z) :
  0 ≤ W → 0 ≤ H → 0 ≤ D →
  ∀ o, is_Some (loadVoxelCorners rot v000 size (W, H, D) !! o) ↔ 0 ≤ o < W * H * D * 8.
Proof.
  intros HW HH HD o. unfold loadVoxelCorners.
  rewrite <- elem_of_dom, writes_dom, dom_empty_L, elem_of_union, elem_of_list_to_set.
  rewrite list_elem_of_fmap. split.
  - intros [Hem|([o' c] & -> & Hin)]; [set_solver|]. simpl.
    apply elem_of_cornerWrites in Hin
      as (i & j & k & x & y & z & ? & ? & ? & ? & ? & ? & -> & _).
    apply offset_range; lia.
  - intros Ho. right.
    destruct (offset_surj W H D o HW HH HD Ho)
      as (i & j & k & x & y & z & ? & ? & ? & ? & ? & ? & ->).
    eexists (_, cornerPosition rot v000 size (i, j, k) x y z). split; [done|].
    apply elem_of_cornerWrites. exists i, j, k, x, y, z. split_and!; (done || lia).
Qed.

Lemma corner_table_slots_witness :
  is_Some (loadVoxelCorners identityRot (mkVec 0 0 0) (1, 1, 1)%Q (3, 3, 3) !! 215) ∧
  ¬ is_Some (loadVoxelCorners identityRot (mkVec 0 0 0) (1, 1, 1)%Q (3, 3, 3) !! 216).
Proof.
  split.
  - apply (corner_table_slots identityRot (mkVec 0 0 0) (1, 1, 1)%Q 3 3 3); lia.
  - intros H.
    apply (corner_table_slots identityRot (mkVec 0 0 0) (1, 1, 1)%Q 3 3 3) in H; lia.
Defined.

(** X19: with [texSize] the dimensions of the image and [voxelCorners] the
    table built by [init], the search reads for corner [cor] of a voxel
    inside the texture the position [init] computed for that corner of that
    voxel: each corner test of [recursiveCheckFromVoxel] is made on the
    voxel's own corner. *)
Theorem search_reads_own_corners (p : Plugin) (proxy : cVector3d) (rot : cMatrix3d)
        (v000 : cVector3d) (size : Q * Q * Q) (idx : Index) (cor : Z) :
  texSize p = (getWidth (image p), getHeight (image p), getImageCount (image p)) →
  (∀ off, voxelCorners p off
          = tableLookup (loadVoxelCorners rot v000 size (texSize p)) off) →
  inRange p idx = true → 0 ≤ cor < 8 →
  voxelCorners p (cornerOffset p idx cor)
    = cornerPosition rot v000 size idx (cor / 4) (cor / 2 mod 2) (cor mod 2) ∧
  cornerInTool p proxy idx cor
    = Qlt_bool (lengthsq (vsub proxy
                  (cornerPosition rot v000 size idx (cor / 4) (cor / 2 mod 2) (cor mod 2))))
               (burrRadius p ^ 2)%Q.
Proof.
  intros Hts Htab Hr Hcor.
  assert (voxelCorners p (cornerOffset p idx cor)
          = cornerPosition rot v000 size idx (cor / 4) (cor / 2 mod 2) (cor mod 2)) as E.
  { rewrite Htab. unfold tableLookup, loadVoxelCorners, cornerOffset.
    destruct idx as [[i j] k]. apply inRange_spec in Hr. rewrite Hts.
    set (W := getWidth (image p)) in *. set (H := getHeight (image p)) in *.
    set (D := getImageCount (image p)) in *.
    assert (cor / 4 = 0 ∨ cor / 4 = 1) as Hx by
      (pose proof (Z.div_mod cor 4 ltac:(lia));
       pose proof (Z.mod_pos_bound cor 4 ltac:(lia)); lia).
    pose proof (Z.mod_pos_bound (cor / 2) 2 ltac:(lia)) as Hy.
    pose proof (Z.mod_pos_bound cor 2 ltac:(lia)) as Hz.
    assert (cor = 4 * (cor / 4) + 2 * (cor / 2 mod 2) + cor mod 2) as Ecor.
    { pose proof (Z.div_mod cor 2 ltac:(lia)).
      pose proof (Z.div_mod (cor / 2) 2 ltac:(lia)).
      assert (cor / 2 / 2 = cor / 4) by (rewrite Z.div_div by lia; done). lia. }
    erewrite writes_lookup; [done | |].
    - apply elem_of_cornerWrites.
      exists i, j, k, (cor / 4), (cor / 2 mod 2), (cor mod 2).
      split_and!; first [lia | reflexivity | (f_equal; exact Ecor)].
    - intros v' Hv'. eapply cornerWrites_functional; [exact Hv'|].
      apply elem_of_cornerWrites.
      exists i, j, k, (cor / 4), (cor / 2 mod 2), (cor mod 2).
      split_and!; first [lia | reflexivity | (f_equal; exact Ecor)]. }
  split; [exact E|]. unfold cornerInTool. by rewrite E.
Qed.

Lemma search_reads_own_corners_witness :
  voxelCorners initCube (cornerOffset initCube (1, 2, 0) 5) = mkVec 2 2 1.
Proof.
  destruct (search_reads_own_corners initCube cubeCentre identityRot (mkVec 0 0 0)
              (1, 1, 1)%Q (1, 2, 0) 5) as [H _].
  - reflexivity.
  - reflexivity.
  - reflexivity.
  - lia.
  - rewrite H. vm_compute. reflexivity.
Defined.

(** * The voxel size computed by [init] *)

(** X20: with texture coordinates in order and a positive texture
    resolution along axis [i], the loop of [init] divides by a positive
    number only, and the voxel size it stores lies between 0 and the extent
    of the volume along that axis: [cMin] returns the quotient when the
    divisor is at least 1 and the extent itself when it is at most 1. *)
Theorem voxel_size_within_extent (v : cVoxelObject) (texSize : Index) (i : Z) :
  0 < iget texSize i →
  (vget (m_minTextureCoord v) i <= vget (m_maxTextureCoord v) i)%Q →
  let extentSpan := Qabs (vget (m_maxCorner v) i - vget (m_minCorner v) i) in
  let divisor := texelDivisor v texSize i in
  ∃ q, voxelSizeAxis v texSize i = Some q ∧
       (0 <= q)%Q ∧ (q <= extentSpan)%Q ∧
       (¬ (vget (m_maxTextureCoord v) i == vget (m_minTextureCoord v) i)%Q →
        (0 < divisor)%Q) ∧
       ((1 <= divisor)%Q → (q == extentSpan / divisor)%Q) ∧
       ((divisor <= 1)%Q → (q == extentSpan)%Q).
Proof.
  intros Hres Hord extentSpan divisor. unfold voxelSizeAxis. fold extentSpan.
  assert (0 <= extentSpan)%Q as Hs by apply Qabs_nonneg.
  destruct (Qeq_bool (vget (m_maxTextureCoord v) i) _) eqn:E.
  - exists extentSpan. apply Qeq_bool_iff in E.
    split; [done|]. split; [done|]. split; [apply Qle_refl|].
    split; [by intros []|]. split; [|reflexivity].
    intros H1. exfalso. subst divisor. unfold texelDivisor in H1.
    assert (vget (m_maxTextureCoord v) i - vget (m_minTextureCoord v) i == 0)%Q as E0
      by lra.
    rewrite E0, Qmult_0_l in H1. revert H1. apply Qlt_not_le. reflexivity.
  - apply Qeq_bool_neq in E.
    assert (0 < vget (m_maxTextureCoord v) i - vget (m_minTextureCoord v) i)%Q as Hspan.
    { destruct (Qlt_le_dec 0 (vget (m_maxTextureCoord v) i - vget (m_minTextureCoord v) i));
        [done|]. destruct E. lra. }
    assert (0 < divisor)%Q as Hd.
    { subst divisor. unfold texelDivisor. apply Qmult_lt_0_compat; [done|].
      unfold Qlt. simpl. lia. }
    fold divisor. set (d := divisor) in *.
    assert (¬ (d == 0)%Q) as Hd0 by lra.
    rewrite (divide_nonzero _ _ Hd0). simpl. rewrite cMin_Qmin.
    exists (Qmin extentSpan (extentSpan / d)). split; [done|].
    assert (0 <= extentSpan / d)%Q as Hq.
    { apply Qle_shift_div_l; [done|]. lra. }
    split; [by apply Q.min_glb|]. split; [apply Q.le_min_l|]. split; [done|]. split.
    + intros H1. apply Q.min_r. apply Qle_shift_div_r; [done|]. nra.
    + intros H1. apply Q.min_l. apply Qle_shift_div_l; [done|]. nra.
Qed.

Lemma voxel_size_within_extent_witness :
  ∃ q, voxelSizeAxis unitVolume (4, 4, 4) 0 = Some q ∧
       (0 <= q)%Q ∧ (q <= 1)%Q ∧ (q == 1 / 4)%Q.
Proof.
  destruct (voxel_size_within_extent unitVolume (4, 4, 4) 0)
    as (q & Hq & H0 & H1 & _ & H4 & _).
  - simpl. lia.
  - discriminate.
  - exists q. split; [exact Hq|]. split; [exact H0|]. split; [exact H1|].
    apply H4. discriminate.
Defined.
